(** * pims/display.py: video export and colourisation

    A shallow embedding of [export], [_normalize], [_estimate_bitrate],
    [wavelength_to_rgb] and [to_rgb] of [src/pims/display.py], with the part
    of NumPy and of the PyAV container that these functions call.

    Conventions of the model.
    - Python exceptions are values of [exn]; a computation that may raise has
      type [exn + A] ([inl e] raises [e], [inr x] returns [x]).
    - NumPy numbers are exact rationals extended with the IEEE special values
      a division by zero produces ([num]).  Rounding of binary64 arithmetic is
      not modelled; every finite result is kept in lowest terms.
    - The Python floats of [wavelength_to_rgb] are exact reals of the form
      [c * b ** gamma] with [c], [b] and [gamma] rational ([pyfloat]).
    - An ndarray is its dtype, its shape and its element function; two
      arrays are compared by their dtype, shape and elements.
    - The PyAV container records what [export] does to it ([Output]). *)

From Stdlib Require Import String ZArith QArith Qround Bool Lia Lqa List.
Import ListNotations.
Local Open Scope string_scope.
Local Open Scope Z_scope.
Local Open Scope list_scope.

Set Implicit Arguments.

(** ** Exceptions *)

Inductive exn : Type :=
| ValueError (msg : string)
| IndexError (msg : string)
| TypeError (msg : string)
| AxisError
| ZeroDivisionError
| UnboundLocalError (var : string).

Definition res (A : Type) : Type := (exn + A)%type.

Definition ret {A} (x : A) : res A := inr x.
Definition raise {A} (e : exn) : res A := inl e.
Definition bind {A B} (c : res A) (k : A -> res B) : res B :=
  match c with
  | inl e => inl e
  | inr x => k x
  end.

Declare Scope res_scope.
Delimit Scope res_scope with res.
Notation "x <- c ;; k" := (bind c (fun x => k))
  (at level 61, c at next level, right associativity) : res_scope.

(** ** Numbers *)

(** A NumPy scalar: a finite value, an infinity, NaN, or [Undef], the result
    of converting a non-finite float to an integer type (C leaves that
    conversion undefined, and NumPy performs it with a C cast). *)
Inductive num : Type :=
| Fin (q : Q)
| PInf
| NInf
| NaN
| Undef.

Definition fin (q : Q) : num := Fin (Qred q).
Definition of_Z (z : Z) : num := Fin (inject_Z z).

Definition Qzero (q : Q) : bool := Qnum q =? 0.
Definition Qneg (q : Q) : bool := Qnum q <? 0.
Definition inf (negative : bool) : num := if negative then NInf else PInf.

Definition num_opp (a : num) : num :=
  match a with
  | Fin q => fin (- q)
  | PInf => NInf
  | NInf => PInf
  | NaN => NaN
  | Undef => Undef
  end.

Definition num_add (a b : num) : num :=
  match a, b with
  | Undef, _ | _, Undef => Undef
  | NaN, _ | _, NaN => NaN
  | Fin x, Fin y => fin (x + y)
  | PInf, NInf | NInf, PInf => NaN
  | PInf, _ | _, PInf => PInf
  | NInf, _ | _, NInf => NInf
  end.

Definition num_sub (a b : num) : num := num_add a (num_opp b).

Definition num_mul (a b : num) : num :=
  match a, b with
  | Undef, _ | _, Undef => Undef
  | NaN, _ | _, NaN => NaN
  | Fin x, Fin y => fin (x * y)
  | Fin x, PInf | PInf, Fin x => if Qzero x then NaN else inf (Qneg x)
  | Fin x, NInf | NInf, Fin x => if Qzero x then NaN else inf (negb (Qneg x))
  | PInf, PInf | NInf, NInf => PInf
  | PInf, NInf | NInf, PInf => NInf
  end.

(** True division ([from __future__ import division]): a zero divisor does
    not raise on arrays; it yields NaN for [0/0] and an infinity otherwise. *)
Definition num_div (a b : num) : num :=
  match a, b with
  | Undef, _ | _, Undef => Undef
  | NaN, _ | _, NaN => NaN
  | Fin x, Fin y =>
      if Qzero y then (if Qzero x then NaN else inf (Qneg x))
      else fin (x / y)
  | Fin _, PInf | Fin _, NInf => Fin 0
  | PInf, Fin y => inf (Qneg y)
  | NInf, Fin y => inf (negb (Qneg y))
  | _, _ => NaN
  end.

Definition num_leb (a b : num) : bool :=
  match a, b with
  | NInf, _ | _, PInf => true
  | Fin x, Fin y => Qle_bool x y
  | _, _ => false
  end.

Definition special (a : num) : bool :=
  match a with NaN | Undef => true | _ => false end.

(** [min] and [max] as NumPy's reductions combine two elements: NaN wins. *)
Definition num_min (a b : num) : num :=
  if special a then a else if special b then b
  else if num_leb a b then a else b.

Definition num_max (a b : num) : num :=
  if special a then a else if special b then b
  else if num_leb a b then b else a.

Definition num_eq0 (a : num) : bool :=
  match a with Fin q => Qzero q | _ => false end.

(** Truncation towards zero, as a C cast from double to an integer does. *)
Definition Qtrunc (q : Q) : Z := Z.quot (Qnum q) (Zpos (Qden q)).

(** Conversion to an unsigned integer of [bits] bits. *)
Definition to_unsigned (bits : Z) (a : num) : num :=
  match a with
  | Fin q => of_Z (Qtrunc q mod 2 ^ bits)
  | _ => Undef
  end.

(** ** dtypes and Python object identity *)

Inductive dtype : Type := uint8 | uint16 | float64.

Definition dtype_eqb (a b : dtype) : bool :=
  match a, b with
  | uint8, uint8 | uint16, uint16 | float64, float64 => true
  | _, _ => false
  end.

(** The two kinds of Python object line 84 of [export] compares: the
    [numpy.dtype] instance an array's [.dtype] attribute holds, and the scalar
    class that [np.uint8] names.  [py_is] is Python's [is]: object identity.
    NumPy keeps one instance per built-in dtype, and a dtype instance is never
    the same object as a scalar class. *)
Inductive pyobj : Type :=
| DtypeInstance (d : dtype)
| ScalarClass (d : dtype).

Definition py_is (a b : pyobj) : bool :=
  match a, b with
  | DtypeInstance d, DtypeInstance d' => dtype_eqb d d'
  | ScalarClass d, ScalarClass d' => dtype_eqb d d'
  | _, _ => false
  end.

(** Conversion of one element to a dtype ([astype]). *)
Definition cast (d : dtype) (a : num) : num :=
  match d with
  | uint8 => to_unsigned 8 a
  | uint16 => to_unsigned 16 a
  | float64 => a
  end.

(** ** Tuples and lists of Python *)

(** [t[i]] on a tuple or list. *)
Definition getitem {A} (what : string) (t : list A) (i : nat) : res A :=
  match nth_error t i with
  | Some x => ret x
  | None => raise (IndexError (String.append what " index out of range"))
  end.

(** [t.count(x)] *)
Definition count (t : list nat) (x : nat) : nat := count_occ Nat.eq_dec t x.

(** [t.index(x)] *)
Fixpoint index (t : list nat) (x : nat) : res nat :=
  match t with
  | [] => raise (ValueError "tuple.index(x): x not in tuple")
  | y :: t' => if Nat.eqb y x then ret 0%nat
               else match index t' x with
                    | inl e => inl e
                    | inr k => ret (S k)
                    end
  end.

(** [l.remove(x)]: the first occurrence; [l.insert(k, x)]. *)
Fixpoint list_remove (l : list nat) (x : nat) : list nat :=
  match l with
  | [] => []
  | y :: l' => if Nat.eqb y x then l' else y :: list_remove l' x
  end.

Definition list_insert {A} (l : list A) (k : nat) (x : A) : list A :=
  firstn k l ++ x :: skipn k l.

Definition delete_at {A} (l : list A) (k : nat) : list A :=
  firstn k l ++ skipn (S k) l.

(** ** ndarrays *)

Record ndarray : Type := mk_array {
  dtype_of : dtype;
  shape : list nat;
  item : list nat -> num
}.

Definition ndim (a : ndarray) : nat := length (shape a).

(** All index tuples of a shape, in row-major order. *)
Fixpoint indices (s : list nat) : list (list nat) :=
  match s with
  | [] => [[]]
  | n :: s' => flat_map (fun i => map (cons i) (indices s')) (seq 0 n)
  end.

Definition elements (a : ndarray) : list num := map (item a) (indices (shape a)).

Definition map_items (d : dtype) (f : num -> num) (a : ndarray) : ndarray :=
  mk_array d (shape a) (fun idx => f (item a idx)).

(** [a.min()], [a.max()]: an empty array has no minimum. *)
Definition reduce (f : num -> num -> num) (a : ndarray) : res num :=
  match elements a with
  | [] => raise (ValueError "zero-size array to reduction operation")
  | x :: xs => ret (fold_left f xs x)
  end.

Definition amin : ndarray -> res num := reduce num_min.
Definition amax : ndarray -> res num := reduce num_max.

(** [a.astype(d)] *)
Definition astype (d : dtype) (a : ndarray) : ndarray := map_items d (cast d) a.

(** [a - s] for a scalar [s] of the array's own type: the dtype is kept. *)
Definition sub_scalar (a : ndarray) (s : num) : ndarray :=
  map_items (dtype_of a) (fun x => cast (dtype_of a) (num_sub x s)) a.

(** [a / s]: true division, always a float64 array. *)
Definition div_scalar (a : ndarray) (s : num) : ndarray :=
  map_items float64 (fun x => num_div x s) a.

(** [k * a] and [a * k] for a Python number [k] (the source does this to
    float64 arrays only). *)
Definition mul_scalar (k : num) (a : ndarray) : ndarray :=
  map_items (dtype_of a) (fun x => cast (dtype_of a) (num_mul x k)) a.

(** [a[i]]: the sub-array at position [i] of the first axis. *)
Definition getitem0 (a : ndarray) (i : nat) : res ndarray :=
  match shape a with
  | [] => raise (IndexError "too many indices for array")
  | n :: s => if (i <? n)%nat
              then ret (mk_array (dtype_of a) s (fun idx => item a (i :: idx)))
              else raise (IndexError "index out of bounds")
  end.

(** [a += b] for arrays of one shape: the sum is stored with [a]'s dtype. *)
Definition iadd (a b : ndarray) : res ndarray :=
  if list_eq_dec Nat.eq_dec (shape a) (shape b)
  then ret (mk_array (dtype_of a) (shape a)
              (fun idx => cast (dtype_of a) (num_add (item a idx) (item b idx))))
  else raise (ValueError "operands could not be broadcast together").

Definition normalize_axis (axis : Z) (n : nat) : res nat :=
  let axis' := if axis <? 0 then axis + Z.of_nat n else axis in
  if (0 <=? axis') && (axis' <? Z.of_nat n) then ret (Z.to_nat axis')
  else raise AxisError.

Fixpoint position (x : nat) (l : list nat) : nat :=
  match l with
  | [] => 0
  | y :: l' => if Nat.eqb y x then 0 else S (position x l')
  end.

Module np.

(** [a.transpose(axes)]: axis [k] of the result is axis [axes[k]] of [a]. *)
Definition transpose (a : ndarray) (axes : list nat) : ndarray :=
  mk_array (dtype_of a)
    (map (fun ax => nth ax (shape a) 0%nat) axes)
    (fun idx => item a (map (fun m => nth (position m axes) idx 0%nat)
                          (seq 0 (ndim a)))).

(** [np.rollaxis(a, axis, start)], after NumPy's own definition. *)
Definition rollaxis (a : ndarray) (axis start : Z) : res ndarray :=
  let n := ndim a in
  (axis <- normalize_axis axis n ;;
   let start := if start <? 0 then start + Z.of_nat n else start in
   if negb ((0 <=? start) && (start <? Z.of_nat n + 1)) then raise AxisError
   else
     let start := Z.to_nat start in
     let start := if (axis <? start)%nat then (start - 1)%nat else start in
     if Nat.eqb axis start then ret a
     else
       let axes := list_insert (list_remove (seq 0 n) axis) start axis in
       ret (transpose a axes))%res.

(** [np.expand_dims(a, axis)] *)
Definition expand_dims (a : ndarray) (axis : Z) : res ndarray :=
  (ax <- normalize_axis axis (ndim a + 1) ;;
   ret (mk_array (dtype_of a) (list_insert (shape a) ax 1%nat)
          (fun idx => item a (delete_at idx ax))))%res.

(** [np.repeat(a, repeats, axis)] *)
Definition repeat (a : ndarray) (repeats : nat) (axis : Z) : res ndarray :=
  (ax <- normalize_axis axis (ndim a) ;;
   ret (mk_array (dtype_of a)
          (firstn ax (shape a)
             ++ (nth ax (shape a) 0 * repeats)%nat :: skipn (S ax) (shape a))
          (fun idx => item a (firstn ax idx
             ++ (nth ax idx 0 / repeats)%nat :: skipn (S ax) idx))))%res.

(** [np.multiply(a, t)] for a tuple [t] of numbers: [t] is broadcast along
    the last axis, which must have its length; the product is float64. *)
Definition multiply (a : ndarray) (t : list num) : res ndarray :=
  if Nat.eqb (last (shape a) 0%nat) (length t) && negb (Nat.eqb (ndim a) 0)
  then ret (mk_array float64 (shape a)
              (fun idx => num_mul (item a idx) (nth (last idx 0%nat) t NaN)))
  else raise (ValueError "operands could not be broadcast together").

(** [np.zeros(shape, dtype)] *)
Definition zeros (s : list nat) (d : dtype) : ndarray :=
  mk_array d s (fun _ => Fin 0).

End np.

(** ** The PyAV container

    [av.open(filename, 'w')] returns a container, [add_stream] a stream of it.
    The model keeps what [export] writes to them: the stream's attributes, the
    frames encoded and muxed so far, and whether [close] was called. *)

Record Output : Type := mk_output {
  filename : string;
  codec_name : string;
  frame_rate : Z;
  pix_fmt : option string;
  bit_rate : option Z;
  stream_width : option Z;
  stream_height : option Z;
  muxed : list ndarray;
  closed : bool
}.

Definition av_open (fname : string) (codec : string) (rate : Z) : Output :=
  mk_output fname codec rate None None None None [] false.

(** Statements of [export]: they may change the container and may raise; the
    container as it is when an exception leaves the function is kept. *)
Definition io (A : Type) : Type := Output -> Output * res A.

Definition io_ret {A} (x : A) : io A := fun o => (o, inr x).
Definition io_bind {A B} (c : io A) (k : A -> io B) : io B :=
  fun o => match c o with
           | (o', inl e) => (o', inl e)
           | (o', inr x) => k x o'
           end.
Definition lift {A} (r : res A) : io A := fun o => (o, r).
Definition update (f : Output -> Output) : io unit := fun o => (f o, inr tt).

Declare Scope io_scope.
Delimit Scope io_scope with io.
Notation "x <- c ;; k" := (io_bind c (fun x => k))
  (at level 61, c at next level, right associativity) : io_scope.
Notation "c ;; k" := (io_bind c (fun _ => k))
  (at level 61, right associativity) : io_scope.

Definition set_pix_fmt (f : string) : io unit :=
  update (fun o => mk_output (filename o) (codec_name o) (frame_rate o) (Some f)
                     (bit_rate o) (stream_width o) (stream_height o) (muxed o) (closed o)).
Definition set_bit_rate (b : Z) : io unit :=
  update (fun o => mk_output (filename o) (codec_name o) (frame_rate o) (pix_fmt o)
                     (Some b) (stream_width o) (stream_height o) (muxed o) (closed o)).
Definition set_width (w : Z) : io unit :=
  update (fun o => mk_output (filename o) (codec_name o) (frame_rate o) (pix_fmt o)
                     (bit_rate o) (Some w) (stream_height o) (muxed o) (closed o)).
Definition set_height (h : Z) : io unit :=
  update (fun o => mk_output (filename o) (codec_name o) (frame_rate o) (pix_fmt o)
                     (bit_rate o) (stream_width o) (Some h) (muxed o) (closed o)).
(** [packet = stream.encode(frame); output.mux(packet)] *)
Definition encode_and_mux (frame : ndarray) : io unit :=
  update (fun o => mk_output (filename o) (codec_name o) (frame_rate o) (pix_fmt o)
                     (bit_rate o) (stream_width o) (stream_height o)
                     (muxed o ++ [frame]) (closed o)).
(** [output.close()] *)
Definition close : io unit :=
  update (fun o => mk_output (filename o) (codec_name o) (frame_rate o) (pix_fmt o)
                     (bit_rate o) (stream_width o) (stream_height o) (muxed o) true).

(** ** export *)

(** [_estimate_bitrate(shape, frame_rate)], lines 257-260. *)
Definition _estimate_bitrate (shp : list nat) (rate : Z) : res Z :=
  (s0 <- getitem "tuple" shp 0 ;;
   s1 <- getitem "tuple" shp 1 ;;
   ret (Z.of_nat s0 * Z.of_nat s1 * 8 * 3 * rate))%res.

(** Python's [a // b] on integers. *)
Definition floordiv (a b : Z) : res Z :=
  if b =? 0 then raise ZeroDivisionError else ret (a / b).

(** The local variables of [export] that the loop assigns. *)
Record locals : Type := mk_locals {
  bitrate : option Z;
  l_ndim : option nat
}.

Definition wrong_shape : exn := ValueError "Images have the wrong shape.".
Definition autoscale_off : exn :=
  ValueError "Autoscaling must be turned on if the image data type is not uint8. Convert the datatype manually if you want to turn off autoscale.".

(** Lines 56-68: the first frame sets up the stream. *)
Definition setup_stream (rate : Z) (width height : option Z) (img : ndarray)
    (l : locals) : io locals :=
  (b <- match bitrate l with
        | None =>
            b <- lift (_estimate_bitrate (shape img) rate) ;;
            set_bit_rate b ;;
            io_ret (Some b)
        | Some b => io_ret (Some b)
        end ;;
   match width with
   | None =>
       h <- lift (getitem "tuple" (shape img) 0) ;;
       set_height (Z.of_nat h) ;;
       w <- lift (getitem "tuple" (shape img) 1) ;;
       set_width (Z.of_nat w)
   | Some w =>
       set_width w ;;
       h <- match height with
            | Some h => if h =? 0 then
                          (s0 <- lift (getitem "tuple" (shape img) 0) ;;
                           s1 <- lift (getitem "tuple" (shape img) 1) ;;
                           lift (floordiv (w * Z.of_nat s0) (Z.of_nat s1)))
                        else io_ret h
            | None =>
                s0 <- lift (getitem "tuple" (shape img) 0) ;;
                s1 <- lift (getitem "tuple" (shape img) 1) ;;
                lift (floordiv (w * Z.of_nat s0) (Z.of_nat s1))
            end ;;
       set_height h
   end ;;
   io_ret (mk_locals b (Some (ndim img))))%io.

(** Lines 70-81: bring the frame to height x width x 3. *)
Definition color_frame (nd : option nat) (img : ndarray) : res ndarray :=
  match nd with
  | Some 3%nat =>
      if negb (Nat.eqb (count (shape img) 3) 1) then raise wrong_shape
      else (color_axis <- index (shape img) 3 ;;
            np.rollaxis img (Z.of_nat color_axis) 3)%res
  | Some 2%nat =>
      (e <- np.expand_dims img 2 ;; np.repeat e 3 2)%res
  | _ => raise wrong_shape
  end.

(** Lines 84-90: the dtype test and the autoscaling. *)
Definition scale_frame (autoscale : bool) (img : ndarray) : res ndarray :=
  if negb (py_is (DtypeInstance (dtype_of img)) (ScalarClass uint8))
     && negb autoscale
  then raise autoscale_off
  else if autoscale then
    (lo <- amin img ;;
     hi <- amax img ;;
     lo' <- amin img ;;
     let normed := div_scalar (sub_scalar img lo)
                     (cast (dtype_of img) (num_sub hi lo')) in
     ret (astype uint8 (mul_scalar (of_Z 255) normed)))%res
  else ret img.

(** One iteration of the loop of lines 55-94. *)
Definition export_frame (rate : Z) (width height : option Z) (autoscale : bool)
    (frame_no : nat) (img : ndarray) (l : locals) : io locals :=
  (l <- (if Nat.eqb frame_no 0 then setup_stream rate width height img l
         else io_ret l) ;;
   img <- lift (color_frame (l_ndim l) img) ;;
   img <- lift (scale_frame autoscale img) ;;
   encode_and_mux img ;;
   io_ret l)%io.

Fixpoint export_loop (rate : Z) (width height : option Z) (autoscale : bool)
    (frame_no : nat) (sequence : list ndarray) (l : locals) : io unit :=
  match sequence with
  | [] => io_ret tt
  | img :: rest =>
      (l <- export_frame rate width height autoscale frame_no img l ;;
       export_loop rate width height autoscale (S frame_no) rest l)%io
  end.

(** [export(sequence, filename, rate, bitrate, width, height, codec, format,
    autoscale)]: the container it leaves behind, and [None] or the exception. *)
Definition export (sequence : list ndarray) (fname : string) (rate : Z)
    (bitrate width height : option Z) (codec format : string)
    (autoscale : bool) : Output * res unit :=
  (set_pix_fmt format ;;
   export_loop rate width height autoscale 0 sequence (mk_locals bitrate None) ;;
   close)%io (av_open fname codec rate).

(** ** _normalize *)

(** [_normalize(arr)], lines 248-254. *)
Definition _normalize (arr : ndarray) : res ndarray :=
  (hi <- amax arr ;;
   lo <- amin arr ;;
   let ptp := cast (dtype_of arr) (num_sub hi lo) in
   (* Handle edge case of a flat image. *)
   let ptp := if num_eq0 ptp then of_Z 1 else ptp in
   lo' <- amin arr ;;
   ret (div_scalar (sub_scalar arr lo') ptp))%res.

(** ** wavelength_to_rgb *)

(** The exponent [gamma], a positive rational [g_num / g_den]. *)
Record exponent : Type := mk_exponent { g_num : positive; g_den : positive }.

(** The default [gamma=0.8]. *)
Definition gamma_default : exponent := mk_exponent 4 5.

(** The Python floats [R], [G] and [B] of [wavelength_to_rgb] are kept in the
    exact form [coeff * base ** gamma], [gamma] being the function's argument
    and [0 <= base]; a plain number [q] is [q * 1 ** gamma]. *)
Record pyfloat : Type := mk_float { coeff : Q; base : Q }.

Definition lit (q : Q) : pyfloat := mk_float q 1.
Definition pow (b : Q) : pyfloat := mk_float 1 b.
Definition times (f : pyfloat) (k : Q) : pyfloat :=
  mk_float (coeff f * k)%Q (base f).

(** The largest [k' <= k] with [p k'], looking at [fuel] candidates. *)
Fixpoint search_down (p : Z -> bool) (fuel : nat) (k : Z) : Z :=
  match fuel with
  | O => 0
  | S fuel' => if p k then k else search_down p fuel' (k - 1)
  end.

(** The integer part of [coeff * base ** (n/d)] for [0 <= coeff, base]: the
    largest [k] with [k ^ d <= coeff ^ d * base ^ n].  It is at most
    [coeff * (1 + base) ^ n]. *)
Definition floor_pow (gamma : exponent) (f : pyfloat) : Z :=
  let n := Zpos (g_num gamma) in
  let d := Zpos (g_den gamma) in
  let bound := Qfloor (coeff f * (1 + base f) ^ n)%Q in
  search_down
    (fun k => Qle_bool (inject_Z k ^ d) (coeff f ^ d * base f ^ n)%Q)
    (Z.to_nat bound + 1) bound.

(** [np.uint8(x)] on a non-negative Python float. *)
Definition uint8_of_float (gamma : exponent) (f : pyfloat) : Z :=
  floor_pow gamma f mod 256.

Definition between (lo hi w : Q) : bool := Qle_bool lo w && Qle_bool w hi.

(** [wavelength_to_rgb(wavelength, gamma)], lines 282-316. *)
Definition wavelength_to_rgb (wavelength : Q) (gamma : exponent) : Z * Z * Z :=
  let '(R, G, B) :=
    (if between 380 440 wavelength then
      let attenuation := (3#10) + (7#10) * (wavelength - 380) / (440 - 380) in
      (pow ((- (wavelength - 440) / (440 - 380)) * attenuation),
       lit 0,
       pow (1 * attenuation))
    else if between 440 490 wavelength then
      (lit 0, pow ((wavelength - 440) / (490 - 440)), lit 1)
    else if between 490 510 wavelength then
      (lit 0, lit 1, pow (- (wavelength - 510) / (510 - 490)))
    else if between 510 580 wavelength then
      (pow ((wavelength - 510) / (580 - 510)), lit 1, lit 0)
    else if between 580 645 wavelength then
      (lit 1, pow (- (wavelength - 645) / (645 - 580)), lit 0)
    else if between 645 750 wavelength then
      let attenuation := (3#10) + (7#10) * (750 - wavelength) / (750 - 645) in
      (pow (1 * attenuation), lit 0, lit 0)
    else
      (lit 0, lit 0, lit 0))%Q in
  let R := times R 255 in
  let G := times G 255 in
  let B := times B 255 in
  (uint8_of_float gamma R, uint8_of_float gamma G, uint8_of_float gamma B).

(** ** to_rgb *)

(** The [wavelengths] argument: [None], one number, or a list of numbers. *)
Inductive wavelengths_arg : Type :=
| WNone
| WScalar (nm : Q)
| WList (nms : list Q).

Definition tuple3 (rgb : Z * Z * Z) : list num :=
  let '(r, g, b) := rgb in [of_Z r; of_Z g; of_Z b].

(** The inner function of [to_rgb], lines 358-362. *)
Definition _monochannel_to_rgb (image : ndarray) (rgb : Z * Z * Z) : res ndarray :=
  (image_rgb <- _normalize image ;;
   e <- np.expand_dims image_rgb (-1) ;;
   image_rgb <- np.repeat e 3 (-1) ;;
   image_rgb <- np.multiply image_rgb (tuple3 rgb) ;;
   ret (astype uint8 image_rgb))%res.

(** Reading a local variable that may not have been assigned yet. *)
Definition read_local (name : string) (v : option nat) : res nat :=
  match v with
  | Some x => ret x
  | None => raise (UnboundLocalError name)
  end.

(** The loop of lines 366-367 over [range(channels)]; [i] is the loop
    variable, which stays as the loop leaves it. *)
Fixpoint accumulate (image : ndarray) (rgbs : list (Z * Z * Z))
    (range : list nat) (result : ndarray) (i : option nat)
    : res (ndarray * option nat) :=
  match range with
  | [] => ret (result, i)
  | k :: range' =>
      (channel <- getitem0 image k ;;
       rgb <- getitem "list" rgbs k ;;
       mono <- _monochannel_to_rgb channel rgb ;;
       result <- iadd result mono ;;
       accumulate image rgbs range' result (Some k))%res
  end.

Definition standard_colors : list (Z * Z * Z) :=
  [(0, 255, 0); (255, 0, 255); (0, 0, 255); (255, 0, 0)].

Definition not_enough : exn :=
  IndexError "Not enough wavelength values to build rgb image".

(** Lines 339-345. *)
Definition is_multichannel (image : ndarray) : bool :=
  (2 <? ndim image)%nat && (hd 0%nat (shape image) <? 5)%nat.

Definition channels (image : ndarray) : nat :=
  if is_multichannel image then hd 0%nat (shape image) else 1%nat.

Definition shape_rgb (image : ndarray) : list nat :=
  (if is_multichannel image then tl (shape image) else shape image) ++ [3%nat].

(** Lines 347-354: the tints. A number has no slice, so [wavelengths[:channels]]
    raises the TypeError that the handler turns into a single tint. *)
Definition tints (image : ndarray) (wavelengths : wavelengths_arg) : list (Z * Z * Z) :=
  match wavelengths with
  | WNone => firstn (channels image) standard_colors
  | WList nms => map (fun nm => wavelength_to_rgb nm gamma_default)
                     (firstn (channels image) nms)
  | WScalar nm => [wavelength_to_rgb nm gamma_default]
  end.

(** Lines 364-369: the accumulated image, before the final normalisation. *)
Definition combine (image : ndarray) (rgbs : list (Z * Z * Z)) : res ndarray :=
  let i : option nat := None in
  if is_multichannel image then
    (r <- accumulate image rgbs (seq 0 (channels image))
            (np.zeros (shape_rgb image) uint16) i ;;
     ret (fst r))%res
  else
    (i <- read_local "i" i ;;
     rgb <- getitem "list" rgbs i ;;
     _monochannel_to_rgb image rgb)%res.

(** [to_rgb(image, wavelengths, normalize)], lines 339-375. *)
Definition to_rgb (image : ndarray) (wavelengths : wavelengths_arg)
    (normalize : bool) : res ndarray :=
  let rgbs := tints image wavelengths in
  if negb (Nat.eqb (channels image) (length rgbs)) then raise not_enough
  else
    (result <- combine image rgbs ;;
     if is_multichannel image && normalize then
       (norm <- amax result ;;
        ret (astype uint8 (mul_scalar (of_Z 255) (div_scalar result norm))))
     else ret result)%res.

(** ** Definitions used to state the properties *)

(** [round] of the specification's [height = round(width * h / w)]: the
    nearest integer (the inputs used below are not ties). *)
Definition round_nearest (q : Q) : Z := Qfloor (q + (1#2))%Q.

Definition spec_height (width h0 w0 : Z) : Z :=
  round_nearest (inject_Z width * inject_Z h0 / inject_Z w0)%Q.

(** A channel value is "near 0" when it is nearer to 0 than to full scale. *)
Definition near_zero (c : Z) : Prop := 0 <= c < 128.

(** A flat array: not empty, and every element is the same finite value. *)
Definition same_value (x y : num) : bool :=
  match x, y with
  | Fin p, Fin q => Qeq_bool p q
  | _, _ => false
  end.

Definition is_flat (a : ndarray) : bool :=
  match elements a with
  | [] => false
  | x :: xs => forallb (same_value x) (x :: xs)
  end.

(** How many tints an argument supplies: the standard colours are four. *)
Definition supplied (wavelengths : wavelengths_arg) : nat :=
  match wavelengths with
  | WNone => length standard_colors
  | WScalar _ => 1%nat
  | WList nms => length nms
  end.

(** The claim of the specification for 550 nm: G is 255, R and B are near 0. *)
Definition pure_green (rgb : Z * Z * Z) : Prop :=
  let '(r, g, b) := rgb in g = 255 /\ near_zero r /\ near_zero b.

(** Every element of [a] is [v]. *)
Definition uniform (v : num) (a : ndarray) : Prop :=
  forall idx, In idx (indices (shape a)) -> item a idx = v.

(** The value of a flat array: [a] is not empty and every element is a finite
    number equal to [q]. *)
Definition near (q : Q) (x : num) : Prop := exists p, x = Fin p /\ (p == q)%Q.

Definition flat_at (q : Q) (a : ndarray) : Prop :=
  indices (shape a) <> [] /\
  forall idx, In idx (indices (shape a)) -> near q (item a idx).

(** Channel [k] of a multichannel image is flat; all channels are. *)
Definition channel_flat (image : ndarray) (k : nat) : bool :=
  match getitem0 image k with
  | inr channel => is_flat channel
  | inl _ => false
  end.

Definition all_channels_flat (image : ndarray) : bool :=
  forallb (channel_flat image) (seq 0 (channels image)).

(** A statement of [export] that leaves [field] of the container as it was. *)
Definition preserves {X A} (field : Output -> X) (c : io A) : Prop :=
  forall o, field (fst (c o)) = field o.

(** ** Concrete frames *)

Definition gray (d : dtype) (h w : nat) (f : nat -> nat -> Z) : ndarray :=
  mk_array d [h; w]
    (fun idx => match idx with [i; j] => of_Z (f i j) | _ => Fin 0 end).

Definition cube (d : dtype) (s : list nat) (f : nat -> nat -> nat -> Z) : ndarray :=
  mk_array d s
    (fun idx => match idx with [i; j; k] => of_Z (f i j k) | _ => Fin 0 end).

(** A 2 x 2 uint8 ramp, a flat 2 x 2 frame, a 3 x 4 frame, a rank-4 frame and
    a colour frame with the colour axis first. *)
Definition ramp22 : ndarray := gray uint8 2 2 (fun i j => Z.of_nat (2 * i + j)).
Definition flat22 : ndarray := gray uint8 2 2 (fun _ _ => 5).
Definition frame34 : ndarray := gray uint8 3 4 (fun i j => Z.of_nat (i + j)).
Definition rank4 : ndarray := mk_array uint8 [1; 1; 1; 1]%nat (fun _ => Fin 0).
Definition color_first : ndarray :=
  cube uint8 [3; 4; 6]%nat (fun c i j => Z.of_nat (24 * c + 6 * i + j)).
Definition color_middle : ndarray :=
  cube uint8 [2; 3; 4]%nat (fun i c j => Z.of_nat (12 * i + 4 * c + j)).
(** Two channels of 2 x 2 pixels: a ramp in each, and a constant in each. *)
Definition two_channels : ndarray :=
  cube uint8 [2; 2; 2]%nat (fun c i j => Z.of_nat (4 * c + 2 * i + j)).
Definition two_flat_channels : ndarray :=
  cube uint8 [2; 2; 2]%nat (fun c _ _ => Z.of_nat (7 + c)).

(** ** Further definitions used to state properties *)

(** An array with no axis of length 0: it has at least one element. *)
Definition nonempty (a : ndarray) : bool := forallb (Nat.ltb 0) (shape a).

(** The shape lines 76-79 give a frame of shape [s]: an axis of length 3 is
    put in third place. *)
Definition gray_shape (s : list nat) : list nat :=
  firstn 2 s ++ 3%nat :: skipn 2 s.

(** A frame no branch of lines 70-81 accepts as a first frame: its rank is
    neither 2 nor 3, or it is 3 without exactly one axis of length 3. *)
Definition malformed (img : ndarray) : bool :=
  match ndim img with
  | 2%nat => false
  | 3%nat => negb (Nat.eqb (count (shape img) 3) 1)
  | _ => true
  end.

(** What the loop body hands to the encoder for a frame when the first frame
    had rank 2. *)
Definition accepted_as_gray (img frame : ndarray) : Prop :=
  shape frame = gray_shape (shape img) /\ dtype_of frame = uint8.

Definition tuple_index_error : exn := IndexError "tuple index out of range".

(** More frames: an empty sequence element of rank 1, a 2 x 2 x 2 x 2 block,
    a 3 x 3 x 2 colour frame with two axes of length 3, a float frame. *)
Definition row3 : ndarray :=
  mk_array uint8 [3%nat] (fun idx => match idx with [i] => of_Z (Z.of_nat i) | _ => Fin 0 end).
Definition block2222 : ndarray := mk_array uint8 [2; 2; 2; 2]%nat (fun _ => Fin 0).
Definition two_color_axes : ndarray := cube uint8 [3; 3; 2]%nat (fun i j k => Z.of_nat (i + j + k)).
Definition halves : ndarray :=
  mk_array float64 [2; 2]%nat
    (fun idx => match idx with
                | [i; j] => Fin (Z.of_nat (2 * i + j) # 2)
                | _ => Fin 0
                end).

(** The values of a dtype: a float64 holds a finite number here, an unsigned
    integer type holds an integer of its range. *)
Definition is_fin (x : num) : bool :=
  match x with Fin _ => true | _ => false end.

Definition is_uint (bits : Z) (x : num) : bool :=
  match x with
  | Fin q => Pos.eqb (Qden q) 1 && (0 <=? Qnum q) && (Qnum q <? 2 ^ bits)
  | _ => false
  end.

Definition fits (d : dtype) (x : num) : bool :=
  match d with
  | uint8 => is_uint 8 x
  | uint16 => is_uint 16 x
  | float64 => is_fin x
  end.

(** Every element of the array is a value of its dtype. *)
Definition well_typed (a : ndarray) : bool :=
  forallb (fits (dtype_of a)) (elements a).

(** An element of [a]: its value at an index tuple of its shape. *)
Definition element (a : ndarray) (x : num) : Prop :=
  exists idx, In idx (indices (shape a)) /\ item a idx = x.

(** A 2 x 2 uint16 frame with values 100, 200, 300 and 400. *)
Definition hundreds : ndarray :=
  gray uint16 2 2 (fun i j => 100 * Z.of_nat (2 * i + j + 1)).

(** What the loop body hands to the encoder for a frame when the first frame
    had rank 3: the frame's colour axis has become the last one. *)
Definition accepted_as_color (img frame : ndarray) : Prop :=
  exists c, index (shape img) 3 = inr c /\
            shape frame = delete_at (shape img) c ++ [3%nat] /\
            dtype_of frame = uint8.

(** A frame lines 70-75 accept: rank 3, one axis of length 3, no empty axis. *)
Definition color_ok (img : ndarray) : bool :=
  Nat.eqb (ndim img) 3 && Nat.eqb (count (shape img) 3) 1 && nonempty img.

(** A frame lines 76-79 accept after a grayscale first frame. *)
Definition gray_ok (img : ndarray) : bool :=
  (2 <=? ndim img)%nat && nonempty img.

Definition zero_size : exn := ValueError "zero-size array to reduction operation".

(** A 2 x 0 frame, and a colour frame with the colour axis last. *)
Definition no_columns : ndarray := mk_array uint8 [2; 0]%nat (fun _ => Fin 0).
Definition color_last : ndarray :=
  cube uint8 [2; 2; 3]%nat (fun i j c => Z.of_nat (6 * i + 3 * j + c)).

(** An integer pixel value from 0 to [n], and an array that has a pixel of
    value 1 or more. *)
Definition pixel_le (n : Z) (x : num) : Prop :=
  exists z, x = of_Z z /\ 0 <= z <= n.

Definition has_positive (a : ndarray) : Prop :=
  exists idx z, In idx (indices (shape a)) /\ item a idx = of_Z z /\ 1 <= z.

(** A tint of three 8-bit components, and a tint that is not black. *)
Definition in_gamut (rgb : Z * Z * Z) : Prop :=
  let '(r, g, b) := rgb in 0 <= r <= 255 /\ 0 <= g <= 255 /\ 0 <= b <= 255.

Definition non_black (rgb : Z * Z * Z) : bool :=
  let '(r, g, b) := rgb in negb ((r =? 0) && (g =? 0) && (b =? 0)).

(** ** _as_png *)

Section Png.

(** [Image.fromarray(a).resize((w, h))] saved as PNG into a buffer: the part
    of [_as_png] that the imaging library does, kept abstract. *)
Variable png_bytes : ndarray -> Z -> Z -> string.

(** [_as_png(arr, width, normalize)], lines 235-245. *)
Definition _as_png (arr : ndarray) (width : Z) (normalize : bool) : res string :=
  let w := width in
  (s0 <- getitem "tuple" (shape arr) 0 ;;
   s1 <- getitem "tuple" (shape arr) 1 ;;
   h <- floordiv (Z.of_nat s0 * w) (Z.of_nat s1) ;;
   arr <- (if normalize then _normalize arr else ret arr) ;;
   ret (png_bytes (astype uint8 (mul_scalar (of_Z 255) arr)) w h))%res.

End Png.

(** * Properties *)

(** ** The container's attributes along [export] *)

Section Preservation.

Variable X : Type.
Variable field : Output -> X.

Lemma preserves_ret A (x : A) : preserves field (io_ret x).
Proof. intro o; reflexivity. Qed.

Lemma preserves_lift A (r : res A) : preserves field (lift r).
Proof. intro o; reflexivity. Qed.

Lemma preserves_bind A B (c : io A) (k : A -> io B) :
  preserves field c -> (forall x, preserves field (k x)) ->
  preserves field (io_bind c k).
Proof.
  intros Hc Hk o. unfold io_bind.
  specialize (Hc o). destruct (c o) as [o' [e | x]]; simpl in *.
  - exact Hc.
  - rewrite Hk. exact Hc.
Qed.

Lemma preserves_update (f : Output -> Output) :
  (forall o, field (f o) = field o) -> preserves field (update f).
Proof. intros Hf o. apply Hf. Qed.

End Preservation.

Ltac keep_field :=
  repeat first
    [ apply preserves_ret | apply preserves_lift
    | apply preserves_update; intro; reflexivity
    | apply preserves_bind; [ | intro ]
    | match goal with
      | |- preserves _ (match ?x with _ => _ end) => destruct x
      | |- preserves _ (if ?x then _ else _) => destruct x
      end ].

Lemma encode_keeps_closed frame : preserves closed (encode_and_mux frame).
Proof. apply preserves_update; intro; reflexivity. Qed.

Lemma setup_keeps_closed rate width height img l :
  preserves closed (setup_stream rate width height img l).
Proof. unfold setup_stream, set_bit_rate, set_width, set_height. keep_field. Qed.

Lemma frame_keeps_closed rate width height autoscale n img l :
  preserves closed (export_frame rate width height autoscale n img l).
Proof.
  unfold export_frame. keep_field;
    solve [apply setup_keeps_closed | apply encode_keeps_closed].
Qed.

Lemma loop_keeps_closed rate width height autoscale sequence :
  forall n l, preserves closed (export_loop rate width height autoscale n sequence l).
Proof.
  induction sequence as [| img rest IH]; intros n l; simpl.
  - apply preserves_ret.
  - apply preserves_bind; [apply frame_keeps_closed | intro; apply IH].
Qed.

(** After the first frame nothing assigns the stream's geometry or bitrate. *)
Lemma later_frames_keep X (field : Output -> X) rate width height autoscale :
  (forall frame, preserves field (encode_and_mux frame)) ->
  forall sequence n l,
    preserves field (export_loop rate width height autoscale (S n) sequence l).
Proof.
  intros Henc sequence. induction sequence as [| img rest IH]; intros n l; simpl.
  - apply preserves_ret.
  - apply preserves_bind; [ | intro; apply IH ].
    unfold export_frame. simpl. keep_field; apply Henc.
Qed.

Lemma run_bind A B (c : io A) (k : A -> io B) o :
  io_bind c k o = match c o with
                  | (o', inl e) => (o', inl e)
                  | (o', inr x) => k x o'
                  end.
Proof. reflexivity. Qed.

Lemma export_unfold sequence fname rate b width height codec format autoscale :
  export sequence fname rate b width height codec format autoscale
  = (export_loop rate width height autoscale 0 sequence (mk_locals b None) ;;
     close)%io (fst (set_pix_fmt format (av_open fname codec rate))).
Proof. reflexivity. Qed.

(** The container [export] leaves behind has the stream attributes the
    first frame's set-up gave it. *)
Lemma export_stream_attribute X (field : Output -> X) :
  (forall frame, preserves field (encode_and_mux frame)) ->
  preserves field close ->
  forall img rest fname rate bitrate width height codec format autoscale,
    field (fst (export (img :: rest) fname rate bitrate width height
                  codec format autoscale))
    = field (fst (setup_stream rate width height img (mk_locals bitrate None)
                    (fst (set_pix_fmt format (av_open fname codec rate))))).
Proof.
  intros Henc Hclose img rest fname rate bitrate width height codec format autoscale.
  rewrite export_unfold.
  set (o1 := fst (set_pix_fmt format (av_open fname codec rate))).
  clearbody o1. simpl export_loop. unfold export_frame. simpl (Nat.eqb 0 0).
  cbv beta iota.
  rewrite !run_bind.
  destruct (setup_stream rate width height img (mk_locals bitrate None) o1)
    as [o2 [e | l]]; simpl; [reflexivity | ].
  assert (Hbody : preserves field
            (img0 <- lift (color_frame (l_ndim l) img) ;;
             img1 <- lift (scale_frame autoscale img0) ;;
             encode_and_mux img1 ;; io_ret l)%io)
    by (keep_field; apply Henc).
  specialize (Hbody o2).
  destruct ((img0 <- lift (color_frame (l_ndim l) img) ;;
             img1 <- lift (scale_frame autoscale img0) ;;
             encode_and_mux img1 ;; io_ret l)%io o2) as [o3 [e | l']];
    simpl in *; [exact Hbody | ].
  pose proof (later_frames_keep rate width height autoscale Henc rest 0%nat l' o3)
    as Hrest.
  destruct (export_loop rate width height autoscale 1 rest l' o3)
    as [o4 [e | u]]; simpl in *.
  - congruence.
  - specialize (Hclose o4). simpl in Hclose. congruence.
Qed.

(** ** C3: closing the container *)

(** C3, the claim as stated fails: exporting a single frame of rank 4 raises
    the "wrong shape" ValueError, and the container is left open. *)
Lemma export_rank4_leaves_container_open :
  let r := export [rank4] "out.avi" 30 None None None "mpeg4" "yuv420p" true in
  snd r = inl wrong_shape /\ closed (fst r) = false.
Proof. vm_compute. split; reflexivity. Qed.

(** C3, amended: [export] closes the container exactly when it returns
    normally; whenever an exception leaves [export], [output.close()] has not
    been called. *)
Theorem export_closes_only_on_success :
  forall sequence fname rate bitrate width height codec format autoscale,
    closed (fst (export sequence fname rate bitrate width height
                   codec format autoscale))
    = match snd (export sequence fname rate bitrate width height
                   codec format autoscale) with
      | inl _ => false
      | inr _ => true
      end.
Proof.
  intros sequence fname rate b width height codec format autoscale.
  rewrite export_unfold. rewrite run_bind.
  set (o1 := fst (set_pix_fmt format (av_open fname codec rate))).
  pose proof (loop_keeps_closed rate width height autoscale sequence 0%nat
                (mk_locals b None) o1) as Hloop.
  destruct (export_loop rate width height autoscale 0 sequence (mk_locals b None) o1)
    as [o' [e | u]]; simpl in *.
  - exact Hloop.
  - reflexivity.
Qed.

(** ** C4: the dtype test *)

(** C4, evaluated on the code: with autoscaling disabled the test of line 84
    rejects every frame, whatever its dtype, because [img.dtype is not
    np.uint8] compares a dtype instance with a scalar class; exporting one
    uint8 frame with [autoscale=False] raises the autoscaling ValueError. *)
Theorem export_uint8_without_autoscale_raises :
  (forall img, scale_frame false img = raise autoscale_off) /\
  dtype_of ramp22 = uint8 /\
  snd (export [ramp22] "out.avi" 30 None None None "mpeg4" "yuv420p" false)
  = inl autoscale_off.
Proof.
  split; [ | split ].
  - intro img. unfold scale_frame. simpl. reflexivity.
  - reflexivity.
  - vm_compute. reflexivity.
Qed.

(** ** C5 and C10: the stream geometry *)

(** C5, the claim as stated fails: for a 3 x 4 first frame and [width=5] the
    stream height is 3, while [round(5 * 3 / 4)] is 4. *)
Lemma export_height_is_not_rounded :
  let o := fst (export [frame34] "out.avi" 30 None (Some 5) None
                  "mpeg4" "yuv420p" true) in
  stream_height o = Some 3 /\
  spec_height 5 3 4 = 4 /\
  stream_height o <> Some (spec_height 5 3 4).
Proof. vm_compute. repeat split; discriminate. Qed.

(** C5, amended: when only [width] is given, the stream height is the floor
    of [width * original_height / original_width] (Python's [//]), taken from
    axes 0 and 1 of the first frame. *)
Theorem export_height_floor_division :
  forall img rest fname rate bitrate width codec format autoscale h0 w0 tl,
    shape img = h0 :: w0 :: tl ->
    w0 <> 0%nat ->
    stream_height (fst (export (img :: rest) fname rate bitrate (Some width) None
                          codec format autoscale))
    = Some (width * Z.of_nat h0 / Z.of_nat w0).
Proof.
  intros img rest fname rate bitrate width codec format autoscale h0 w0 tl Hs Hw.
  rewrite (export_stream_attribute (field := stream_height));
    [ | intros f o; reflexivity | intros o; reflexivity ].
  unfold setup_stream. rewrite Hs.
  assert (Hdiv : floordiv (width * Z.of_nat h0) (Z.of_nat w0)
                 = ret (width * Z.of_nat h0 / Z.of_nat w0)).
  { unfold floordiv. destruct (Z.eqb_spec (Z.of_nat w0) 0); [lia | reflexivity]. }
  destruct bitrate as [b | ]; simpl; unfold io_bind, lift; simpl;
    rewrite Hdiv; reflexivity.
Qed.

Lemma export_height_floor_division_witness :
  shape frame34 = [3; 4]%nat /\ 4%nat <> 0%nat /\
  stream_height (fst (export [frame34] "out.avi" 30 None (Some 5) None
                        "mpeg4" "yuv420p" true)) = Some (5 * Z.of_nat 3 / Z.of_nat 4).
Proof.
  split; [reflexivity | split; [discriminate | ]].
  apply (@export_height_floor_division frame34 [] "out.avi" 30 None 5
           "mpeg4" "yuv420p" true 3%nat 4%nat []); [reflexivity | discriminate].
Defined.

(** C10: with [width=None] and [bitrate=None] the stream's height and width
    are axes 0 and 1 of the first frame as it arrives, and the bitrate is
    estimated from the same two axes; for a first frame of shape (3, H, W) the
    stream height is 3, the width is H and the bitrate comes from 3 x H. *)
Theorem export_geometry_from_raw_axes :
  forall img rest fname rate height codec format autoscale,
    let o := fst (export (img :: rest) fname rate None None height
                    codec format autoscale) in
    (forall s0 s1 tl, shape img = s0 :: s1 :: tl ->
       stream_height o = Some (Z.of_nat s0) /\
       stream_width o = Some (Z.of_nat s1) /\
       bit_rate o = Some (Z.of_nat s0 * Z.of_nat s1 * 8 * 3 * rate)) /\
    (forall H W, shape img = [3; H; W]%nat ->
       stream_height o = Some 3 /\
       stream_width o = Some (Z.of_nat H) /\
       bit_rate o = Some (3 * Z.of_nat H * 8 * 3 * rate)).
Proof.
  intros img rest fname rate height codec format autoscale o.
  assert (G : forall s0 s1 tl, shape img = s0 :: s1 :: tl ->
       stream_height o = Some (Z.of_nat s0) /\
       stream_width o = Some (Z.of_nat s1) /\
       bit_rate o = Some (Z.of_nat s0 * Z.of_nat s1 * 8 * 3 * rate)).
  { intros s0 s1 tl Hs. subst o.
    rewrite (export_stream_attribute (field := stream_height));
      [ | intros f o; reflexivity | intros o; reflexivity ].
    rewrite (export_stream_attribute (field := stream_width));
      [ | intros f o; reflexivity | intros o; reflexivity ].
    rewrite (export_stream_attribute (field := bit_rate));
      [ | intros f o; reflexivity | intros o; reflexivity ].
    unfold setup_stream, _estimate_bitrate. rewrite Hs. simpl.
    repeat split; reflexivity. }
  split; [exact G | ].
  intros H W Hs. exact (G 3%nat H [W] Hs).
Qed.

Lemma export_geometry_from_raw_axes_witness :
  shape color_first = [3; 4; 6]%nat /\
  let o := fst (export [color_first] "out.avi" 30 None None None
                  "mpeg4" "yuv420p" true) in
  stream_height o = Some 3 /\
  stream_width o = Some (Z.of_nat 4) /\
  bit_rate o = Some (3 * Z.of_nat 4 * 8 * 3 * 30).
Proof.
  split; [reflexivity | ].
  apply (proj2 (@export_geometry_from_raw_axes color_first [] "out.avi" 30 None
                  "mpeg4" "yuv420p" true) 4%nat 6%nat).
  reflexivity.
Defined.

(** ** C7: the colour axis of a rank-3 frame *)

Lemma shape_of_rank3 (s : list nat) :
  length s = 3%nat -> exists a b c, s = [a; b; c].
Proof.
  destruct s as [| a [| b [| c [| d s]]]]; simpl; try discriminate.
  intros _. now exists a, b, c.
Qed.

(** C7: for a rank-3 frame with exactly one axis of length 3, lines 70-75
    return the frame with that axis moved to the end and the other two axes
    in their order: element [i, j, k] of the result is the element of the
    frame whose colour index is [k] and whose other indices are [i, j];
    rolling the last axis back to the colour axis' place gives an array of
    the frame's dtype and shape with the frame's elements. *)
Theorem color_axis_last_roundtrip :
  forall img,
    ndim img = 3%nat ->
    count (shape img) 3 = 1%nat ->
    exists c out back,
      index (shape img) 3 = inr c /\
      color_frame (Some 3%nat) img = inr out /\
      shape out = delete_at (shape img) c ++ [3%nat] /\
      (forall i j k, item out [i; j; k] = item img (list_insert [i; j] c k)) /\
      np.rollaxis out 2 (Z.of_nat c) = inr back /\
      dtype_of back = dtype_of img /\
      shape back = shape img /\
      (forall i j k, item back [i; j; k] = item img [i; j; k]).
Proof.
  intros [d s f] Hn Hc. unfold ndim in Hn. simpl in *.
  destruct (shape_of_rank3 s Hn) as (a & b & c & ->).
  unfold color_frame, count in *. simpl shape in *. simpl count_occ in *.
  destruct (Nat.eq_dec a 3) as [-> | Ha];
    destruct (Nat.eq_dec b 3) as [-> | Hb];
    destruct (Nat.eq_dec c 3) as [-> | Hc3]; try discriminate; clear Hc.
  - (* colour axis 0 *)
    apply Nat.eqb_neq in Hb.
    eexists 0%nat, _, _. simpl. rewrite ?Hb.
    repeat split; reflexivity.
  - (* colour axis 1 *)
    apply Nat.eqb_neq in Ha.
    eexists 1%nat, _, _. simpl. rewrite ?Ha.
    repeat split; reflexivity.
  - (* colour axis 2 *)
    apply Nat.eqb_neq in Ha, Hb.
    eexists 2%nat, _, _. simpl. rewrite ?Ha, ?Hb.
    repeat split; reflexivity.
Qed.

Lemma color_axis_last_roundtrip_witness :
  ndim color_middle = 3%nat /\ count (shape color_middle) 3 = 1%nat /\
  exists c out back,
    index (shape color_middle) 3 = inr c /\
    color_frame (Some 3%nat) color_middle = inr out /\
    shape out = delete_at (shape color_middle) c ++ [3%nat] /\
    (forall i j k, item out [i; j; k] = item color_middle (list_insert [i; j] c k)) /\
    np.rollaxis out 2 (Z.of_nat c) = inr back /\
    dtype_of back = dtype_of color_middle /\
    shape back = shape color_middle /\
    (forall i j k, item back [i; j; k] = item color_middle [i; j; k]).
Proof.
  split; [reflexivity | split; [reflexivity | ]].
  apply (color_axis_last_roundtrip color_middle); reflexivity.
Defined.

(** ** C1: to_rgb on a single channel *)

(** C1, evaluated on the code: for an image that is not multichannel,
    [to_rgb] with [wavelengths=None] raises UnboundLocalError at line 369,
    where it reads the loop variable [i] of a loop that did not run; it
    returns no image. *)
Theorem to_rgb_single_channel_unbound_local :
  forall image normalize,
    is_multichannel image = false ->
    to_rgb image WNone normalize = raise (UnboundLocalError "i").
Proof.
  intros image normalize H.
  unfold to_rgb, tints, combine, channels. rewrite H. reflexivity.
Qed.

Lemma to_rgb_single_channel_unbound_local_witness :
  is_multichannel ramp22 = false /\
  to_rgb ramp22 WNone true = raise (UnboundLocalError "i").
Proof.
  split; [reflexivity | ].
  apply (to_rgb_single_channel_unbound_local ramp22 true). reflexivity.
Defined.

(** ** C8: too few tints *)

Lemma length_tints image wavelengths :
  length (tints image wavelengths)
  = match wavelengths with
    | WScalar _ => 1%nat
    | _ => Nat.min (channels image) (supplied wavelengths)
    end.
Proof.
  destruct wavelengths as [| nm | nms]; simpl.
  - apply length_firstn.
  - reflexivity.
  - rewrite length_map. apply length_firstn.
Qed.

(** C8: when the [wavelengths] argument supplies fewer tints than the image
    has channels, [to_rgb] raises the "Not enough wavelength values"
    IndexError (for every image, multichannel ones included). *)
Theorem to_rgb_not_enough_wavelengths :
  forall image wavelengths normalize,
    (supplied wavelengths < channels image)%nat ->
    to_rgb image wavelengths normalize = raise not_enough.
Proof.
  intros image wavelengths normalize H.
  unfold to_rgb.
  assert (Hne : Nat.eqb (channels image) (length (tints image wavelengths)) = false).
  { apply Nat.eqb_neq. rewrite length_tints.
    destruct wavelengths; simpl in *; lia. }
  rewrite Hne. reflexivity.
Qed.

Lemma to_rgb_not_enough_wavelengths_witness :
  is_multichannel two_channels = true /\
  (supplied (WList [500%Q]) < channels two_channels)%nat /\
  to_rgb two_channels (WList [500%Q]) true = raise not_enough.
Proof.
  split; [reflexivity | split; [vm_compute; lia | ]].
  apply (to_rgb_not_enough_wavelengths two_channels (WList [500%Q]) true).
  vm_compute; lia.
Defined.

(** ** C6: wavelength_to_rgb *)

Lemma search_down_sound p fuel k :
  p (search_down p fuel k) = true \/ search_down p fuel k = 0.
Proof.
  revert k. induction fuel as [| fuel IH]; intro k; simpl.
  - now right.
  - destruct (p k) eqn:E; [now left | apply IH].
Qed.

Lemma search_down_greatest p fuel k j :
  search_down p fuel k < j <= k -> k - Z.of_nat fuel < j -> p j = false.
Proof.
  revert k. induction fuel as [| fuel IH]; intros k H1 H2; simpl in *.
  - lia.
  - destruct (p k) eqn:E; [lia | ].
    destruct (Z.eq_dec j k) as [-> | Hjk]; [exact E | ].
    apply (IH (k - 1)); lia.
Qed.

(** 255 * (4/7) ** 0.8 lies between 162 and 163. *)
Lemma red_at_550_bracket :
  (162 ^ 5 <= 255 ^ 5 * (4 # 7) ^ 4 /\ 255 ^ 5 * (4 # 7) ^ 4 < 163 ^ 5)%Q.
Proof. split; [discriminate | reflexivity]. Qed.

Lemma between_outside lo hi w :
  (w < lo \/ hi < w)%Q -> between lo hi w = false.
Proof.
  intros H. unfold between. apply andb_false_iff.
  destruct H as [H | H]; [left | right];
    (destruct (Qle_bool _ _) eqn:E; [ | reflexivity ]);
    apply Qle_bool_iff in E; exfalso; revert E; apply Qlt_not_le; exact H.
Qed.

Lemma uint8_of_zero gamma : uint8_of_float gamma (times (lit 0) 255) = 0.
Proof.
  unfold uint8_of_float, floor_pow. simpl.
  destruct (Qle_bool _ _); reflexivity.
Qed.

(** C6, the claim as stated fails: at 550 nm the red channel is 162, which
    is not near 0. *)
Lemma wavelength_550_is_not_pure_green :
  ~ pure_green (wavelength_to_rgb 550 gamma_default).
Proof.
  assert (E : wavelength_to_rgb 550 gamma_default = (162, 255, 0))
    by (vm_compute; reflexivity).
  rewrite E. unfold pure_green, near_zero. lia.
Qed.

(** C6, amended: [wavelength_to_rgb(550)] is (162, 255, 0): G is 255, B is 0
    and R, which ramps up across the 510-580 band, is 162;
    [wavelength_to_rgb(300)] and [wavelength_to_rgb(800)] are (0, 0, 0), as is
    the result for every wavelength below 380 or above 750, for any gamma. *)
Theorem wavelength_to_rgb_550_and_outside :
  wavelength_to_rgb 550 gamma_default = (162, 255, 0) /\
  wavelength_to_rgb 300 gamma_default = (0, 0, 0) /\
  wavelength_to_rgb 800 gamma_default = (0, 0, 0) /\
  (forall w gamma, (w < 380 \/ 750 < w)%Q -> wavelength_to_rgb w gamma = (0, 0, 0)).
Proof.
  repeat split; try (vm_compute; reflexivity).
  intros w gamma H. unfold wavelength_to_rgb.
  assert (Hlt : forall lo hi, (380 <= lo)%Q -> (hi <= 750)%Q -> between lo hi w = false).
  { intros lo hi Hlo Hhi. apply between_outside.
    destruct H as [H | H]; [left | right].
    - eapply Qlt_le_trans; eassumption.
    - eapply Qle_lt_trans; eassumption. }
  rewrite !Hlt by (unfold Qle; simpl; lia).
  rewrite !uint8_of_zero. reflexivity.
Qed.

Lemma wavelength_to_rgb_550_and_outside_witness :
  (300 < 380 \/ 750 < 300)%Q /\ wavelength_to_rgb 300 (mk_exponent 1 1) = (0, 0, 0).
Proof.
  split; [left; reflexivity | ].
  apply (proj2 (proj2 (proj2 wavelength_to_rgb_550_and_outside))).
  left; reflexivity.
Defined.

(** ** Index tuples and reductions *)

Lemma In_indices s : forall idx, In idx (indices s) <-> Forall2 lt idx s.
Proof.
  induction s as [| n s IH]; intro idx; simpl.
  - split.
    + intros [<- | []]. constructor.
    + intros H. inversion H. now left.
  - rewrite in_flat_map. split.
    + intros (i & Hi & Hin). apply in_map_iff in Hin as (idx' & <- & Hin').
      apply in_seq in Hi. constructor; [lia | now apply IH].
    + intros H. inversion H as [| i n' idx' s' Hlt Hrest]; subst.
      exists i. split; [apply in_seq; lia | ].
      apply in_map. now apply IH.
Qed.

Lemma In_indices_length s idx : In idx (indices s) -> length idx = length s.
Proof. intros H. apply In_indices in H. eapply Forall2_length; eassumption. Qed.

(** The index tuples of a shape with one more axis at the end. *)
Lemma In_indices_app s n idx :
  In idx (indices (s ++ [n])) <->
  exists idx0 k, idx = idx0 ++ [k] /\ In idx0 (indices s) /\ (k < n)%nat.
Proof.
  rewrite In_indices. split.
  - intros H. apply Forall2_app_inv_r in H as (idx0 & l & H0 & H1 & ->).
    inversion H1 as [| k n' l' s' Hk Hnil]; subst. inversion Hnil; subst.
    exists idx0, k. repeat split; [now apply In_indices | exact Hk].
  - intros (idx0 & k & -> & H0 & Hk). apply Forall2_app.
    + now apply In_indices.
    + now repeat constructor.
Qed.

Lemma indices_app_nonempty s n :
  indices s <> [] -> (0 < n)%nat -> indices (s ++ [n]) <> [].
Proof.
  intros Hs Hn. destruct (indices s) as [| idx0 l] eqn:E; [congruence | ].
  intros Hnil.
  assert (Hin : In (idx0 ++ [0%nat]) (indices (s ++ [n]))).
  { apply In_indices_app. exists idx0, 0%nat. repeat split; [ | exact Hn ].
    rewrite E. now left. }
  rewrite Hnil in Hin. exact Hin.
Qed.

Lemma elements_nonempty a : indices (shape a) <> [] -> elements a <> [].
Proof.
  unfold elements. destruct (indices (shape a)); [congruence | discriminate].
Qed.

Lemma Forall_elements (P : num -> Prop) a :
  (forall idx, In idx (indices (shape a)) -> P (item a idx)) ->
  Forall P (elements a).
Proof.
  intros H. unfold elements. apply Forall_forall. intros x Hx.
  apply in_map_iff in Hx as (idx & <- & Hin). now apply H.
Qed.

(** A reduction of a non-empty array stays in any set of numbers that holds
    the elements and is closed under the operation. *)
Lemma reduce_closed (P : num -> Prop) f a :
  (forall x y, P x -> P y -> P (f x y)) ->
  indices (shape a) <> [] ->
  (forall idx, In idx (indices (shape a)) -> P (item a idx)) ->
  exists r, reduce f a = inr r /\ P r.
Proof.
  intros Hf Hne Hall. unfold reduce.
  pose proof (Forall_elements P a Hall) as HF.
  pose proof (elements_nonempty a Hne) as Hel.
  destruct (elements a) as [| x xs]; [congruence | ].
  exists (fold_left f xs x). split; [reflexivity | ].
  inversion HF as [| x' xs' Hx Hxs]; subst. clear HF Hel.
  revert x Hx. induction Hxs as [| y ys Hy Hys IH]; intros x Hx; simpl.
  - exact Hx.
  - apply IH. now apply Hf.
Qed.

Lemma near_min q x y : near q x -> near q y -> near q (num_min x y).
Proof.
  intros (p & -> & Hp) (p' & -> & Hp'). unfold num_min. simpl.
  destruct (Qle_bool p p'); [exists p | exists p']; auto.
Qed.

Lemma near_max q x y : near q x -> near q y -> near q (num_max x y).
Proof.
  intros (p & -> & Hp) (p' & -> & Hp'). unfold num_max. simpl.
  destruct (Qle_bool p p'); [exists p' | exists p]; auto.
Qed.

Lemma flat_amin q a : flat_at q a -> exists r, amin a = inr r /\ near q r.
Proof. intros [Hne H]. apply reduce_closed; auto using near_min. Qed.

Lemma flat_amax q a : flat_at q a -> exists r, amax a = inr r /\ near q r.
Proof. intros [Hne H]. apply reduce_closed; auto using near_max. Qed.

Lemma uniform_zero_amax a :
  indices (shape a) <> [] -> uniform (Fin 0) a -> amax a = inr (Fin 0).
Proof.
  intros Hne Hu.
  destruct (reduce_closed (fun x => x = Fin 0) num_max a) as (r & Hr & ->); auto.
  intros x y -> ->. reflexivity.
Qed.

(** ** Arithmetic on equal finite values *)

Lemma sub_near q x y : near q x -> near q y -> num_sub x y = Fin 0.
Proof.
  intros (p & -> & Hp) (p' & -> & Hp'). unfold num_sub, num_opp, num_add, fin.
  f_equal. change 0%Q with (Qred 0). apply Qred_complete.
  rewrite Qred_correct, Hp, Hp'. ring.
Qed.

Lemma cast_zero d : cast d (Fin 0) = Fin 0.
Proof. destruct d; reflexivity. Qed.

Lemma is_flat_flat_at a : is_flat a = true -> exists q, flat_at q a.
Proof.
  unfold is_flat, elements. intros H.
  destruct (indices (shape a)) as [| idx0 l] eqn:E; simpl in H; [discriminate | ].
  destruct (item a idx0) as [q | | | | ] eqn:E0; simpl in H; try discriminate.
  exists q. unfold flat_at. rewrite E. split; [discriminate | ].
  intros idx Hin.
  apply andb_prop in H as [_ H]. rewrite forallb_forall in H.
  destruct Hin as [<- | Hin].
  - exists q. split; [exact E0 | reflexivity].
  - specialize (H (item a idx) (in_map _ _ _ Hin)).
    destruct (item a idx) as [p | | | | ]; try discriminate.
    exists p. split; [reflexivity | ].
    apply Qeq_bool_iff in H. symmetry. exact H.
Qed.

(** ** Flat arrays through the two normalisations *)

(** [_normalize] on a flat array: the guard of lines 251-252 replaces the
    zero range by 1, and every element of the result is 0. *)
Lemma _normalize_flat q a :
  flat_at q a ->
  exists out, _normalize a = inr out /\ shape out = shape a /\
              dtype_of out = float64 /\ uniform (Fin 0) out.
Proof.
  intros Hflat. unfold _normalize.
  destruct (flat_amax Hflat) as (hi & -> & Hhi).
  destruct (flat_amin Hflat) as (lo & -> & Hlo). simpl.
  rewrite (sub_near Hhi Hlo), cast_zero. simpl.
  eexists. repeat split.
  intros idx Hin. simpl in *.
  rewrite (sub_near (proj2 Hflat idx Hin) Hlo), cast_zero. reflexivity.
Qed.

(** The autoscaling of lines 88-90 on a flat array: the divisor
    [img.max() - img.min()] is 0, every quotient is NaN, and the uint8 frame
    holds no defined value. *)
Lemma scale_frame_flat q a :
  flat_at q a ->
  exists lo hi out,
    amin a = inr lo /\ amax a = inr hi /\
    cast (dtype_of a) (num_sub hi lo) = Fin 0 /\
    uniform NaN (div_scalar (sub_scalar a lo) (Fin 0)) /\
    scale_frame true a = inr out /\ shape out = shape a /\
    dtype_of out = uint8 /\ uniform Undef out.
Proof.
  intros Hflat. unfold scale_frame.
  destruct (flat_amax Hflat) as (hi & Ehi & Hhi).
  destruct (flat_amin Hflat) as (lo & Elo & Hlo).
  exists lo, hi. rewrite Ehi, Elo. simpl.
  rewrite (sub_near Hhi Hlo), cast_zero.
  assert (Hnan : uniform NaN (div_scalar (sub_scalar a lo) (Fin 0))).
  { intros idx Hin. simpl in *.
    rewrite (sub_near (proj2 Hflat idx Hin) Hlo), cast_zero. reflexivity. }
  eexists. repeat split; try assumption.
  intros idx Hin. pose proof (Hnan idx Hin) as Hx.
  simpl in Hx |- *. rewrite Hx. reflexivity.
Qed.

(** ** A new last axis of length 3 *)

Lemma normalize_axis_last (axis : Z) (n : nat) :
  axis = Z.of_nat n \/ axis = -1 ->
  normalize_axis axis (n + 1) = inr n.
Proof.
  intros H.
  assert (E : (if axis <? 0 then axis + Z.of_nat (n + 1) else axis) = Z.of_nat n).
  { destruct H as [-> | ->].
    - destruct (Z.ltb_spec (Z.of_nat n) 0); lia.
    - change (-1 <? 0) with true. cbv iota. lia. }
  unfold normalize_axis. rewrite E.
  destruct (Z.leb_spec 0 (Z.of_nat n)); [ | lia].
  destruct (Z.ltb_spec (Z.of_nat n) (Z.of_nat (n + 1))); [ | lia].
  simpl andb. cbv iota. unfold ret. f_equal. lia.
Qed.

Lemma firstn_length_app A (l l' : list A) : firstn (length l) (l ++ l') = l.
Proof. rewrite firstn_app, firstn_all, Nat.sub_diag. simpl. apply app_nil_r. Qed.

Lemma nth_length_app A (l : list A) x d : nth (length l) (l ++ [x]) d = x.
Proof. rewrite app_nth2, Nat.sub_diag by lia. reflexivity. Qed.

Lemma skipn_past_app A (l : list A) x : skipn (S (length l)) (l ++ [x]) = [].
Proof. apply skipn_all2. rewrite length_app. simpl. lia. Qed.

Lemma list_insert_end A (l : list A) x : list_insert l (length l) x = l ++ [x].
Proof. unfold list_insert. now rewrite firstn_all, skipn_all. Qed.

Lemma delete_at_end A (l : list A) x : delete_at (l ++ [x]) (length l) = l.
Proof.
  unfold delete_at. rewrite firstn_length_app, skipn_past_app. apply app_nil_r.
Qed.

(** [np.repeat(np.expand_dims(a, axis), 3, axis)] for the axis after the last
    one of [a], written as [a.ndim] or as -1. *)
Lemma expand_repeat_last a (ax1 ax2 : Z) :
  ax1 = Z.of_nat (ndim a) \/ ax1 = -1 ->
  ax2 = Z.of_nat (ndim a) \/ ax2 = -1 ->
  exists out,
    (e <- np.expand_dims a ax1 ;; np.repeat e 3 ax2)%res = inr out /\
    shape out = shape a ++ [3%nat] /\
    dtype_of out = dtype_of a /\
    forall idx0 k, In idx0 (indices (shape a)) -> (k < 3)%nat ->
                   item out (idx0 ++ [k]) = item a idx0.
Proof.
  intros H1 H2. unfold np.expand_dims.
  rewrite (normalize_axis_last (ndim a) H1). cbn [bind ret].
  unfold np.repeat. unfold ndim at 1. cbn [shape dtype_of item].
  unfold ndim. rewrite list_insert_end, length_app. cbn [length].
  fold (ndim a). rewrite (normalize_axis_last (ndim a) H2). cbn [bind ret].
  eexists. split; [reflexivity | ]. cbn [shape dtype_of item]. unfold ndim.
  rewrite firstn_length_app, nth_length_app, skipn_past_app.
  repeat split.
  intros idx0 k Hin Hk. apply In_indices_length in Hin. rewrite <- Hin.
  rewrite firstn_length_app, nth_length_app, skipn_past_app.
  rewrite (Nat.div_small k 3 Hk). now rewrite delete_at_end.
Qed.

(** Lines 76-79 keep a flat grayscale frame flat. *)
Lemma color_frame_gray_flat q img :
  ndim img = 2%nat -> flat_at q img ->
  exists out, color_frame (Some 2%nat) img = inr out /\
              shape out = shape img ++ [3%nat] /\ flat_at q out.
Proof.
  intros Hn [Hne Hall]. unfold color_frame.
  destruct (@expand_repeat_last img 2 2) as (out & E & Hs & _ & Hitem);
    try (left; rewrite Hn; reflexivity).
  exists out. split; [exact E | split; [exact Hs | ]].
  split.
  - rewrite Hs. apply indices_app_nonempty; [exact Hne | lia].
  - intros idx Hin. rewrite Hs in Hin.
    apply In_indices_app in Hin as (idx0 & k & -> & Hin0 & Hk).
    rewrite Hitem by assumption. now apply Hall.
Qed.

(** ** C2: flat frames *)

Lemma nonempty_axes_positive s :
  indices s <> [] -> Forall (fun n => (0 < n)%nat) s.
Proof.
  intros Hne. destruct (indices s) as [| idx l] eqn:E; [congruence | clear Hne].
  assert (Hin : In idx (indices s)) by (rewrite E; now left).
  apply In_indices in Hin. clear E l.
  induction Hin as [| i n idx s Hlt _ IH]; constructor; [lia | exact IH].
Qed.

(** The set-up of lines 56-68 succeeds on a first frame of rank 2 that is
    not empty, and muxes nothing. *)
Lemma setup_stream_gray rate width height img b o :
  ndim img = 2%nat -> indices (shape img) <> [] ->
  exists o' b',
    setup_stream rate width height img (mk_locals b None) o
    = (o', inr (mk_locals b' (Some 2%nat))) /\ muxed o' = muxed o.
Proof.
  intros Hn Hne. apply nonempty_axes_positive in Hne.
  unfold setup_stream, ndim in *. rewrite Hn.
  destruct (shape img) as [| h [| w [| x s]]]; try discriminate.
  inversion Hne as [| ? ? _ Hw]; subst. inversion Hw as [| ? ? Hw0 _]; subst.
  assert (Hdiv : forall z, floordiv z (Z.of_nat w) = ret (z / Z.of_nat w)).
  { intro z. unfold floordiv. destruct (Z.eqb_spec (Z.of_nat w) 0); [lia | reflexivity]. }
  destruct b as [b | ], width as [wd | ], height as [[ | hp | hn] | ];
    unfold io_bind, lift, set_width, set_height, set_bit_rate, update, io_ret;
    cbn -[Z.mul Z.div floordiv Z.of_nat]; rewrite ?Hdiv;
    cbn -[Z.mul Z.div Z.of_nat]; eexists _, _; split; reflexivity.
Qed.

(** C2, evaluated on the code: for a flat grayscale frame, [_normalize]
    takes its guarded path and returns zeros, but the autoscaling inside
    [export] has no guard: its divisor [img.max() - img.min()] is 0, every
    quotient is NaN, and the frame handed to the encoder holds no defined
    value. *)
Theorem flat_frame_guarded_in_normalize_not_in_export :
  forall img fname rate b width height codec format,
    ndim img = 2%nat ->
    is_flat img = true ->
    (exists out, _normalize img = inr out /\ uniform (Fin 0) out) /\
    (exists colored lo hi,
       color_frame (Some 2%nat) img = inr colored /\
       amin colored = inr lo /\ amax colored = inr hi /\
       cast (dtype_of colored) (num_sub hi lo) = Fin 0 /\
       uniform NaN (div_scalar (sub_scalar colored lo) (Fin 0))) /\
    (exists o frame,
       export [img] fname rate b width height codec format true = (o, inr tt) /\
       muxed o = [frame] /\
       elements frame <> [] /\
       Forall (fun x => x = Undef) (elements frame)).
Proof.
  intros img fname rate b width height codec format Hn Hflat.
  destruct (is_flat_flat_at img Hflat) as (q & Hq).
  destruct (_normalize_flat Hq) as (out & En & _ & _ & Hout).
  destruct (color_frame_gray_flat Hn Hq) as (colored & Ec & Hsc & Hqc).
  destruct (scale_frame_flat Hqc)
    as (lo & hi & frame & Elo & Ehi & Hzero & Hnan & Es & Hsf & _ & Hundef).
  split; [now exists out | split; [now exists colored, lo, hi | ]].
  rewrite export_unfold.
  set (o1 := fst (set_pix_fmt format (av_open fname codec rate))).
  destruct (@setup_stream_gray rate width height img b o1 Hn (proj1 Hq))
    as (o2 & b' & Esetup & Hmux).
  cbn [export_loop]. unfold export_frame. cbn [Nat.eqb].
  rewrite !run_bind, Esetup. cbn [l_ndim]. unfold lift at 1. rewrite Ec.
  rewrite run_bind. cbv beta iota. unfold lift at 1. rewrite Es.
  eexists _, frame. split; [reflexivity | ].
  cbn [muxed fst]. rewrite Hmux. split; [reflexivity | ]. split.
  - apply elements_nonempty. rewrite Hsf. exact (proj1 Hqc).
  - apply Forall_elements. exact Hundef.
Qed.

Lemma flat_frame_guarded_in_normalize_not_in_export_witness :
  ndim flat22 = 2%nat /\ is_flat flat22 = true /\
  exists o frame,
    export [flat22] "out.avi" 30 None None None "mpeg4" "yuv420p" true = (o, inr tt) /\
    muxed o = [frame] /\
    elements frame <> [] /\
    Forall (fun x => x = Undef) (elements frame).
Proof.
  split; [reflexivity | split; [reflexivity | ]].
  apply (@flat_frame_guarded_in_normalize_not_in_export flat22 "out.avi" 30
           None None None "mpeg4" "yuv420p"); reflexivity.
Defined.

(** ** C9: the final normalisation of to_rgb *)

Lemma uniform_zero_last_axis s a :
  shape a = s ++ [3%nat] ->
  (forall idx0 k, In idx0 (indices s) -> (k < 3)%nat -> item a (idx0 ++ [k]) = Fin 0) ->
  uniform (Fin 0) a.
Proof.
  intros Hs H idx Hin. rewrite Hs in Hin.
  apply In_indices_app in Hin as (idx0 & k & -> & Hin0 & Hk). now apply H.
Qed.

Lemma mul_zero_tint rgb k : (k < 3)%nat -> num_mul (Fin 0) (nth k (tuple3 rgb) NaN) = Fin 0.
Proof.
  destruct rgb as [[r g] b]. intros Hk.
  destruct k as [| [| [| k]]]; try lia; reflexivity.
Qed.

(** Multiplying zeros by a tint. *)
Lemma multiply_zero s a rgb :
  shape a = s ++ [3%nat] -> uniform (Fin 0) a ->
  exists out, np.multiply a (tuple3 rgb) = inr out /\
              shape out = shape a /\ uniform (Fin 0) out.
Proof.
  intros Hs Hu. unfold np.multiply, ndim. rewrite Hs, last_last, length_app.
  assert (Hl : length (tuple3 rgb) = 3%nat) by (destruct rgb as [[? ?] ?]; reflexivity).
  rewrite Hl. cbn [length Nat.eqb]. rewrite Nat.add_comm. cbn [Nat.add Nat.eqb negb andb].
  eexists. split; [reflexivity | ]. cbn [shape]. split; [reflexivity | ].
  intros idx Hin. cbn [shape item] in *. rewrite <- Hs in Hin. rewrite (Hu idx Hin).
  rewrite Hs in Hin. apply In_indices_app in Hin as (idx0 & k & -> & _ & Hk).
  rewrite last_last. now apply mul_zero_tint.
Qed.

(** A flat channel contributes zeros, whatever its tint. *)
Lemma _monochannel_to_rgb_flat q channel rgb :
  flat_at q channel ->
  exists mono, _monochannel_to_rgb channel rgb = inr mono /\
               shape mono = shape channel ++ [3%nat] /\
               uniform (Fin 0) mono.
Proof.
  intros Hflat. unfold _monochannel_to_rgb.
  destruct (_normalize_flat Hflat) as (n1 & -> & Hs1 & _ & Hu1). cbn [bind].
  destruct (@expand_repeat_last n1 (-1) (-1)) as (n2 & E2 & Hs2 & _ & Hi2);
    try (now right).
  unfold bind in E2 |- *.
  destruct (np.expand_dims n1 (-1)) as [e | x]; [discriminate | ].
  rewrite E2.
  assert (Hu2 : uniform (Fin 0) n2).
  { eapply uniform_zero_last_axis; [exact Hs2 | ]. intros idx0 k Hin Hk.
    rewrite Hi2 by assumption. now apply Hu1. }
  destruct (@multiply_zero (shape n1) n2 rgb Hs2 Hu2) as (n3 & -> & Hs3 & Hu3).
  eexists. split; [reflexivity | ]. cbn [shape astype map_items].
  split; [now rewrite Hs3, Hs2, Hs1 | ].
  intros idx Hin. cbn [shape item astype map_items] in *.
  rewrite (Hu3 idx Hin). reflexivity.
Qed.

Lemma getitem0_shape a k channel :
  getitem0 a k = inr channel -> shape channel = tl (shape a).
Proof.
  unfold getitem0. destruct (shape a) as [| n s]; [discriminate | ].
  destruct (k <? n)%nat; [ | discriminate].
  intros E. inversion E. reflexivity.
Qed.

Lemma getitem_some A what (l : list A) k :
  (k < length l)%nat -> exists x, getitem what l k = inr x.
Proof.
  intros Hk. unfold getitem. destruct (nth_error l k) as [x | ] eqn:E.
  - now exists x.
  - apply nth_error_None in E. lia.
Qed.

(** The loop of lines 366-367 over flat channels leaves the accumulator at
    zero. *)
Lemma accumulate_flat image rgbs range :
  (forall k, In k range -> channel_flat image k = true) ->
  (forall k, In k range -> (k < length rgbs)%nat) ->
  forall result i,
    shape result = tl (shape image) ++ [3%nat] ->
    uniform (Fin 0) result ->
    exists r i',
      accumulate image rgbs range result i = inr (r, i') /\
      shape r = tl (shape image) ++ [3%nat] /\
      dtype_of r = dtype_of result /\
      uniform (Fin 0) r.
Proof.
  induction range as [| k range IH]; intros Hflat Hlen result i Hs Hu.
  - exists result, i. repeat split; assumption.
  - cbn [accumulate].
    pose proof (Hflat k (or_introl eq_refl)) as Hk. unfold channel_flat in Hk.
    destruct (getitem0 image k) as [e | channel] eqn:Ech; [discriminate | ].
    destruct (is_flat_flat_at channel Hk) as (q & Hq).
    destruct (@getitem_some _ "list" rgbs k (Hlen k (or_introl eq_refl))) as (rgb & ->).
    destruct (@_monochannel_to_rgb_flat q channel rgb Hq) as (mono & Em & Hsm & Hum).
    cbn [bind]. rewrite Em. cbn [bind].
    rewrite (@getitem0_shape image k channel Ech) in Hsm.
    unfold iadd. rewrite Hs, Hsm.
    destruct (list_eq_dec Nat.eq_dec _ _) as [_ | Hne]; [ | congruence ].
    cbn [bind ret].
    match goal with
    | |- context [accumulate image rgbs range ?r ?j] =>
        destruct (IH (fun k' H => Hflat k' (or_intror H))
                     (fun k' H => Hlen k' (or_intror H)) r j)
          as (r' & i' & E & Hs' & Hd' & Hu')
    end.
    + reflexivity.
    + intros idx Hin. cbn [shape item] in *.
      rewrite Hu by (rewrite Hs; exact Hin).
      rewrite Hum by (rewrite Hsm; exact Hin).
      apply cast_zero.
    + exists r', i'. repeat split; assumption.
Qed.

(** C9: for a multichannel image with at least one channel, enough tints and
    every channel flat, the accumulated image of lines 364-367 is all zeros,
    the divisor [norm = result.max()] of line 373 is 0, every quotient
    [result / norm] is NaN, and with [normalize=True] [to_rgb] returns an
    array none of whose elements is a defined value. *)
Theorem to_rgb_flat_channels_zero_divisor :
  forall image wavelengths,
    is_multichannel image = true ->
    (0 < channels image)%nat ->
    (channels image <= supplied wavelengths)%nat ->
    all_channels_flat image = true ->
    exists result out,
      combine image (tints image wavelengths) = inr result /\
      amax result = inr (Fin 0) /\
      uniform NaN (div_scalar result (Fin 0)) /\
      to_rgb image wavelengths true = inr out /\
      elements out <> [] /\
      Forall (fun x => x = Undef) (elements out).
Proof.
  intros image wavelengths Hmulti Hpos Hsup Hflat.
  unfold all_channels_flat in Hflat. rewrite forallb_forall in Hflat.
  assert (Hlen : length (tints image wavelengths) = channels image).
  { rewrite length_tints. destruct wavelengths; simpl in *; lia. }
  (* the accumulation *)
  destruct (@accumulate_flat image (tints image wavelengths) (seq 0 (channels image))
              Hflat) with (result := np.zeros (shape_rgb image) uint16) (i := @None nat)
    as (r & i' & Eacc & Hsr & _ & Hur).
  { intros k Hk. apply in_seq in Hk. lia. }
  { unfold shape_rgb. rewrite Hmulti. reflexivity. }
  { intros idx _. reflexivity. }
  (* the image has pixels *)
  assert (Hne : indices (shape r) <> []).
  { assert (H0 : In 0%nat (seq 0 (channels image))) by (apply in_seq; lia).
    specialize (Hflat _ H0). unfold channel_flat in Hflat.
    destruct (getitem0 image 0) as [e | channel] eqn:Ech; [discriminate | ].
    destruct (is_flat_flat_at channel Hflat) as (q & Hq & _).
    rewrite (@getitem0_shape image 0%nat channel Ech) in Hq.
    rewrite Hsr. apply indices_app_nonempty; [exact Hq | lia]. }
  assert (Ecomb : combine image (tints image wavelengths) = inr r).
  { unfold combine. rewrite Hmulti, Eacc. reflexivity. }
  pose proof (uniform_zero_amax Hne Hur) as Emax.
  assert (Hnan : uniform NaN (div_scalar r (Fin 0))).
  { intros idx Hin. cbn [shape item div_scalar map_items] in *.
    rewrite (Hur idx Hin). reflexivity. }
  exists r. eexists. split; [exact Ecomb | ]. split; [exact Emax | ].
  split; [exact Hnan | ].
  unfold to_rgb. rewrite Hlen, Nat.eqb_refl, Ecomb, Hmulti.
  cbn [negb andb bind]. rewrite Emax. cbn [bind].
  split; [reflexivity | ]. split.
  - apply elements_nonempty. exact Hne.
  - apply Forall_elements. intros idx Hin.
    pose proof (Hnan idx Hin) as Hx.
    cbn [shape item astype mul_scalar div_scalar map_items dtype_of] in Hx |- *.
    rewrite Hx. reflexivity.
Qed.

Lemma to_rgb_flat_channels_zero_divisor_witness :
  is_multichannel two_flat_channels = true /\
  (0 < channels two_flat_channels)%nat /\
  (channels two_flat_channels <= supplied WNone)%nat /\
  all_channels_flat two_flat_channels = true /\
  exists result out,
    combine two_flat_channels (tints two_flat_channels WNone) = inr result /\
    amax result = inr (Fin 0) /\
    uniform NaN (div_scalar result (Fin 0)) /\
    to_rgb two_flat_channels WNone true = inr out /\
    elements out <> [] /\
    Forall (fun x => x = Undef) (elements out).
Proof.
  split; [reflexivity | ].
  split; [vm_compute; lia | ].
  split; [vm_compute; lia | ].
  split; [reflexivity | ].
  apply (@to_rgb_flat_channels_zero_divisor two_flat_channels WNone);
    solve [reflexivity | vm_compute; lia].
Defined.

(** * Further properties of [export] *)

(** ** The empty sequence and the arguments that are not applied *)

(** X1: on an empty sequence [export] returns normally with the container
    closed and nothing muxed; the stream gets no bitrate, width or height,
    also when the caller passed them. *)
Theorem export_empty_sequence :
  forall fname rate bitrate width height codec format autoscale,
    let r := export [] fname rate bitrate width height codec format autoscale in
    snd r = inr tt /\ closed (fst r) = true /\ muxed (fst r) = [] /\
    bit_rate (fst r) = None /\ stream_width (fst r) = None /\
    stream_height (fst r) = None.
Proof. intros. repeat split. Qed.

Lemma setup_keeps_bit_rate rate width height img b :
  preserves bit_rate (setup_stream rate width height img (mk_locals (Some b) None)).
Proof.
  unfold setup_stream, set_bit_rate, set_width, set_height.
  cbn [bitrate]. keep_field.
Qed.

(** X2: a bitrate the caller passes is never written to the stream: the
    stream's [bit_rate] is assigned only inside the [if bitrate is None]
    block of lines 58-60. *)
Theorem export_explicit_bitrate_not_applied :
  forall sequence fname rate b width height codec format autoscale,
    bit_rate (fst (export sequence fname rate (Some b) width height
                     codec format autoscale)) = None.
Proof.
  intros [| img rest] fname rate b width height codec format autoscale.
  - reflexivity.
  - rewrite (export_stream_attribute (field := bit_rate));
      [ | intros f o; reflexivity | intros o; reflexivity ].
    rewrite setup_keeps_bit_rate. reflexivity.
Qed.

(** After the first frame the loop does not look at [width] and [height]. *)
Lemma later_frames_ignore_geometry rate w h w' h' autoscale sequence :
  forall n l o,
    export_loop rate w h autoscale (S n) sequence l o
    = export_loop rate w' h' autoscale (S n) sequence l o.
Proof.
  induction sequence as [| img rest IH]; intros n l o; [reflexivity | ].
  cbn [export_loop]. rewrite !run_bind.
  change (export_frame rate w h autoscale (S n) img l o)
    with (export_frame rate w' h' autoscale (S n) img l o).
  destruct (export_frame rate w' h' autoscale (S n) img l o) as [o' [e | l']];
    [reflexivity | apply IH].
Qed.

Lemma export_same_setup sequence fname rate b w h w' h' codec format autoscale :
  (forall img l o, setup_stream rate w h img l o = setup_stream rate w' h' img l o) ->
  export sequence fname rate b w h codec format autoscale
  = export sequence fname rate b w' h' codec format autoscale.
Proof.
  intros Hsetup. rewrite !export_unfold.
  set (o1 := fst (set_pix_fmt format (av_open fname codec rate))). clearbody o1.
  destruct sequence as [| img rest]; [reflexivity | ].
  rewrite !run_bind. cbn [export_loop]. rewrite !run_bind.
  unfold export_frame. cbn [Nat.eqb]. rewrite !run_bind. rewrite Hsetup.
  destruct (setup_stream rate w' h' img (mk_locals b None) o1) as [o2 [e | l]];
    [reflexivity | ].
  match goal with
  | |- context [io_bind ?c ?k o2] => destruct (io_bind c k o2) as [o3 [e | l']]
  end; [reflexivity | ].
  rewrite (later_frames_ignore_geometry rate w h w' h' autoscale rest 0%nat l' o3).
  reflexivity.
Qed.

(** X3: without [width] the [height] argument is not used: [export] does the
    same for any two values of it. *)
Theorem export_height_unused_without_width :
  forall sequence fname rate b h h' codec format autoscale,
    export sequence fname rate b None h codec format autoscale
    = export sequence fname rate b None h' codec format autoscale.
Proof. intros. apply export_same_setup. reflexivity. Qed.

(** X4: [height=0] is falsy in [height or ...]: with a width, it is the same
    as no height, and the height is derived from the first frame. *)
Theorem export_zero_height_is_unset :
  forall sequence fname rate b w codec format autoscale,
    export sequence fname rate b (Some w) (Some 0) codec format autoscale
    = export sequence fname rate b (Some w) None codec format autoscale.
Proof. intros. apply export_same_setup. reflexivity. Qed.

(** ** The first frame's set-up in general *)

(** On a first frame with at least two axes, the second of them not of
    length 0, lines 56-68 raise nothing, mux nothing and record the frame's
    rank. *)
Lemma setup_stream_succeeds rate width height img b o h0 w0 tl :
  shape img = h0 :: w0 :: tl -> w0 <> 0%nat ->
  exists o' b',
    setup_stream rate width height img (mk_locals b None) o
    = (o', inr (mk_locals b' (Some (ndim img)))) /\
    muxed o' = muxed o /\ closed o' = closed o /\
    (forall w, width = Some w -> stream_width o' = Some w) /\
    (forall w h, width = Some w -> height = Some h -> h <> 0 ->
                 stream_height o' = Some h).
Proof.
  intros Hs Hw0.
  pose proof (setup_keeps_closed rate width height img (mk_locals b None) o) as Hc.
  unfold setup_stream in *. rewrite Hs in *.
  assert (Hdiv : forall z, floordiv z (Z.of_nat w0) = ret (z / Z.of_nat w0)).
  { intro z. unfold floordiv. destruct (Z.eqb_spec (Z.of_nat w0) 0); [lia | reflexivity]. }
  destruct b as [b | ], width as [wd | ], height as [[ | hp | hn] | ];
    unfold io_bind, lift, set_width, set_height, set_bit_rate, update, io_ret in *;
    cbn -[Z.mul Z.div floordiv Z.of_nat] in *; rewrite ?Hdiv in *;
    cbn -[Z.mul Z.div Z.of_nat] in *; eexists _, _;
    (split; [reflexivity | ]); cbn [muxed closed stream_width stream_height];
    repeat split; try exact Hc; intros; congruence.
Qed.

(** X5: a width and a non-zero height the caller passes are written to the
    stream as they are, whatever the frames' own size. *)
Theorem export_explicit_geometry :
  forall img rest fname rate b w h codec format autoscale,
    (2 <= ndim img)%nat ->
    h <> 0 ->
    let o := fst (export (img :: rest) fname rate b (Some w) (Some h)
                    codec format autoscale) in
    stream_width o = Some w /\ stream_height o = Some h.
Proof.
  intros img rest fname rate b w h codec format autoscale Hn Hh o. subst o.
  rewrite (export_stream_attribute (field := stream_width));
    [ | intros f o; reflexivity | intros o; reflexivity ].
  rewrite (export_stream_attribute (field := stream_height));
    [ | intros f o; reflexivity | intros o; reflexivity ].
  unfold ndim in Hn. unfold setup_stream.
  destruct (shape img) as [| h0 [| w0 tl]]; simpl in Hn; try lia.
  destruct b as [b | ], h as [ | hp | hn]; try congruence;
    split; reflexivity.
Qed.

Lemma export_explicit_geometry_witness :
  (2 <= ndim frame34)%nat /\ 9 <> 0 /\
  let o := fst (export [frame34] "out.avi" 30 None (Some 7) (Some 9)
                  "mpeg4" "yuv420p" true) in
  stream_width o = Some 7 /\ stream_height o = Some 9.
Proof.
  split; [vm_compute; lia | split; [discriminate | ]].
  apply (@export_explicit_geometry frame34 [] "out.avi" 30 None 7 9
           "mpeg4" "yuv420p" true); [vm_compute; lia | discriminate].
Defined.

(** ** Grayscale frames *)

Lemma normalize_axis_nat (ax n : nat) :
  (ax < n)%nat -> normalize_axis (Z.of_nat ax) n = inr ax.
Proof.
  intros H. unfold normalize_axis.
  destruct (Z.ltb_spec (Z.of_nat ax) 0); [lia | ].
  destruct (Z.leb_spec 0 (Z.of_nat ax)); [ | lia].
  destruct (Z.ltb_spec (Z.of_nat ax) (Z.of_nat n)); [ | lia].
  simpl andb. cbv iota. unfold ret. f_equal. lia.
Qed.

Lemma indices_nonempty s : forallb (Nat.ltb 0) s = true -> indices s <> [].
Proof.
  induction s as [| n s IH]; simpl; [discriminate | ].
  intros H. apply andb_prop in H as [Hn Hs]. apply Nat.ltb_lt in Hn.
  specialize (IH Hs).
  destruct n as [| n]; [lia | ]. simpl.
  destruct (indices s) as [| idx l]; [congruence | discriminate].
Qed.

Lemma nonempty_indices a : nonempty a = true -> indices (shape a) <> [].
Proof. apply indices_nonempty. Qed.

(** Lines 76-79 on a frame of rank 2 or more: the new axis of length 3 comes
    third, and each of its three planes is the frame. *)
Lemma color_frame_gray img :
  (2 <= ndim img)%nat ->
  exists out,
    color_frame (Some 2%nat) img = inr out /\
    shape out = gray_shape (shape img) /\
    dtype_of out = dtype_of img /\
    (forall i j k rest, item out (i :: j :: k :: rest) = item img (i :: j :: rest)).
Proof.
  intros Hn. unfold color_frame, np.expand_dims.
  change 2 with (Z.of_nat 2). rewrite normalize_axis_nat by lia. cbn [bind ret].
  unfold np.repeat, ndim in *. cbn [shape dtype_of item].
  destruct (shape img) as [| a [| b tl]] eqn:Es; simpl in Hn; try lia.
  rewrite normalize_axis_nat by (unfold list_insert; simpl; lia). cbn [bind ret].
  eexists. split; [reflexivity | ]. cbn [shape dtype_of item].
  split; [reflexivity | ]. split; reflexivity.
Qed.

(** X6: a grayscale frame becomes a height x width x 3 frame of the same
    dtype whose three colour planes are the frame itself. *)
Theorem gray_frame_replicated :
  forall img,
    ndim img = 2%nat ->
    exists out,
      color_frame (Some 2%nat) img = inr out /\
      shape out = shape img ++ [3%nat] /\
      dtype_of out = dtype_of img /\
      forall i j k, item out [i; j; k] = item img [i; j].
Proof.
  intros img Hn.
  destruct (@color_frame_gray img) as (out & E & Hs & Hd & Hi); [lia | ].
  exists out. repeat split; try assumption.
  - rewrite Hs. unfold ndim in Hn.
    destruct (shape img) as [| a [| b [| c tl]]]; try discriminate. reflexivity.
  - intros i j k. apply Hi.
Qed.

Lemma gray_frame_replicated_witness :
  ndim ramp22 = 2%nat /\
  exists out,
    color_frame (Some 2%nat) ramp22 = inr out /\
    shape out = shape ramp22 ++ [3%nat] /\
    dtype_of out = dtype_of ramp22 /\
    forall i j k, item out [i; j; k] = item ramp22 [i; j].
Proof.
  split; [reflexivity | ].
  apply (gray_frame_replicated ramp22). reflexivity.
Defined.

(** ** Sequences that start with a grayscale frame *)

Lemma reduce_succeeds f a :
  indices (shape a) <> [] -> exists r, reduce f a = inr r.
Proof.
  intros Hne. destruct (@reduce_closed (fun _ => True) f a) as (r & E & _); auto.
  now exists r.
Qed.

(** With autoscaling on, lines 84-90 raise nothing on an array that is not
    empty, and return a uint8 array of its shape. *)
Lemma scale_frame_succeeds a :
  indices (shape a) <> [] ->
  exists out, scale_frame true a = inr out /\
              shape out = shape a /\ dtype_of out = uint8.
Proof.
  intros Hne. unfold scale_frame, amin, amax.
  destruct (reduce_succeeds num_min a Hne) as (lo & ->).
  destruct (reduce_succeeds num_max a Hne) as (hi & ->).
  rewrite andb_false_r. cbn [bind ret]. eexists. repeat split.
Qed.

Lemma gray_shape_nonempty s :
  forallb (Nat.ltb 0) s = true -> forallb (Nat.ltb 0) (gray_shape s) = true.
Proof.
  intros H. unfold gray_shape. rewrite forallb_app.
  rewrite <- (firstn_skipn 2 s), forallb_app in H.
  apply andb_prop in H as [H1 H2]. rewrite H1. cbn [forallb]. now rewrite H2.
Qed.

Lemma gray_step rate width height n img l o :
  l_ndim l = Some 2%nat ->
  (2 <= ndim img)%nat -> nonempty img = true ->
  exists frame,
    export_frame rate width height true (S n) img l o
    = (fst (encode_and_mux frame o), inr l) /\
    accepted_as_gray img frame.
Proof.
  intros Hl Hn Hne.
  destruct (color_frame_gray img Hn) as (colored & Ec & Hs & _ & _).
  destruct (@scale_frame_succeeds colored) as (frame & Es & Hsf & Hdf).
  { rewrite Hs. apply indices_nonempty, gray_shape_nonempty, Hne. }
  exists frame. split; [ | split; congruence ].
  unfold export_frame. cbn [Nat.eqb]. rewrite !run_bind. cbn [io_ret].
  rewrite Hl. unfold lift at 1. rewrite Ec. rewrite run_bind.
  unfold lift at 1. rewrite Es. reflexivity.
Qed.

Lemma gray_loop rate width height rest :
  forall n l o,
    l_ndim l = Some 2%nat ->
    forallb (fun f => (2 <=? ndim f)%nat && nonempty f) rest = true ->
    exists o' frames,
      export_loop rate width height true (S n) rest l o = (o', inr tt) /\
      closed o' = closed o /\
      muxed o' = muxed o ++ frames /\
      Forall2 accepted_as_gray rest frames.
Proof.
  induction rest as [| img rest IH]; intros n l o Hl Hall.
  - exists o, []. cbn. rewrite app_nil_r. repeat split. constructor.
  - cbn [forallb] in Hall. apply andb_prop in Hall as [Himg Hrest].
    apply andb_prop in Himg as [Hn Hne]. apply Nat.leb_le in Hn.
    destruct (@gray_step rate width height n img l o Hl Hn Hne) as (frame & E & Hacc).
    destruct (IH (S n) l (fst (encode_and_mux frame o)) Hl Hrest)
      as (o' & frames & E' & Hc & Hm & HF).
    exists o', (frame :: frames).
    cbn [export_loop]. rewrite run_bind, E, E'.
    split; [reflexivity | ]. split; [exact Hc | ]. split.
    + rewrite Hm. cbn [encode_and_mux update fst muxed].
      now rewrite <- app_assoc.
    + now constructor.
Qed.

(** X7: when the first frame is a non-empty grayscale frame and autoscaling
    is on, [export] accepts every later non-empty frame of rank 2 or more
    without looking at its rank: it returns normally, closes the container,
    and has muxed one uint8 frame per input frame, in order, each with an
    axis of length 3 put in third place.  [export] itself does no more
    checking; the container of the model takes every frame it is handed. *)
Theorem export_gray_sequence :
  forall img rest fname rate b width height codec format,
    ndim img = 2%nat ->
    nonempty img = true ->
    forallb (fun f => (2 <=? ndim f)%nat && nonempty f) rest = true ->
    exists o,
      export (img :: rest) fname rate b width height codec format true
      = (o, inr tt) /\
      closed o = true /\
      Forall2 accepted_as_gray (img :: rest) (muxed o).
Proof.
  intros img rest fname rate b width height codec format Hn Hne Hrest.
  rewrite export_unfold.
  set (o1 := fst (set_pix_fmt format (av_open fname codec rate))).
  destruct (@setup_stream_gray rate width height img b o1 Hn (nonempty_indices img Hne))
    as (o2 & b' & Esetup & Hmux).
  destruct (@color_frame_gray img) as (colored & Ec & Hs & _ & _); [lia | ].
  destruct (@scale_frame_succeeds colored) as (frame & Es & Hsf & Hdf).
  { rewrite Hs. apply indices_nonempty, gray_shape_nonempty, Hne. }
  destruct (@gray_loop rate width height rest 0%nat (mk_locals b' (Some 2%nat))
              (fst (encode_and_mux frame o2)) eq_refl Hrest)
    as (o3 & frames & Eloop & Hc & Hm & HF).
  exists (fst (close o3)).
  cbn [export_loop]. unfold export_frame. cbn [Nat.eqb].
  rewrite !run_bind, Esetup. cbn [l_ndim]. unfold lift at 1. rewrite Ec.
  rewrite run_bind. cbv beta iota. unfold lift at 1. rewrite Es.
  rewrite !run_bind.
  change (encode_and_mux frame o2)
    with (fst (encode_and_mux frame o2), @inr exn unit tt) at 1.
  cbv beta iota. unfold io_ret at 1. rewrite Eloop.
  split; [reflexivity | ]. split; [reflexivity | ].
  cbn [close update fst muxed]. rewrite Hm.
  cbn [encode_and_mux update fst muxed]. rewrite Hmux.
  constructor; [split; congruence | exact HF].
Qed.

Lemma export_gray_sequence_witness :
  ndim ramp22 = 2%nat /\ nonempty ramp22 = true /\
  forallb (fun f => (2 <=? ndim f)%nat && nonempty f) [color_middle; frame34] = true /\
  exists o,
    export [ramp22; color_middle; frame34] "out.avi" 30 None None None
      "mpeg4" "yuv420p" true = (o, inr tt) /\
    closed o = true /\
    Forall2 accepted_as_gray [ramp22; color_middle; frame34] (muxed o).
Proof.
  split; [reflexivity | split; [reflexivity | split; [reflexivity | ]]].
  apply (@export_gray_sequence ramp22 [color_middle; frame34] "out.avi" 30
           None None None "mpeg4" "yuv420p"); reflexivity.
Defined.

(** ** First frames that are rejected *)

Lemma color_frame_malformed img :
  malformed img = true -> color_frame (Some (ndim img)) img = raise wrong_shape.
Proof.
  unfold malformed, color_frame.
  destruct (ndim img) as [| [| [| [| n]]]]; intros H; try reflexivity;
    try discriminate.
  now rewrite H.
Qed.

(** X8: a first frame of rank 4 or more, or of rank 3 without exactly one
    axis of length 3, makes [export] raise the "wrong shape" ValueError after
    the stream has been set up: nothing has been muxed, and the container
    stays open. *)
Theorem export_malformed_first_frame :
  forall img rest fname rate b width height codec format autoscale,
    (2 <= ndim img)%nat ->
    nth 1 (shape img) 0%nat <> 0%nat ->
    malformed img = true ->
    let r := export (img :: rest) fname rate b width height codec format autoscale in
    snd r = inl wrong_shape /\ muxed (fst r) = [] /\ closed (fst r) = false.
Proof.
  intros img rest fname rate b width height codec format autoscale Hn Hw Hbad r.
  subst r. rewrite export_unfold.
  set (o1 := fst (set_pix_fmt format (av_open fname codec rate))).
  unfold ndim in Hn.
  destruct (shape img) as [| h0 [| w0 tl]] eqn:Es; simpl in Hn; try lia.
  destruct (@setup_stream_succeeds rate width height img b o1 h0 w0 tl Es Hw)
    as (o2 & b' & Esetup & Hmux & Hclosed & _).
  cbn [export_loop]. unfold export_frame. cbn [Nat.eqb].
  rewrite !run_bind, Esetup. cbn [l_ndim]. unfold lift at 1.
  rewrite (color_frame_malformed img Hbad). cbn.
  rewrite Hmux, Hclosed. repeat split.
Qed.

Lemma export_malformed_first_frame_witness :
  (2 <= ndim two_color_axes)%nat /\
  nth 1 (shape two_color_axes) 0%nat <> 0%nat /\
  malformed two_color_axes = true /\
  let r := export [two_color_axes; ramp22] "out.avi" 30 None None None
             "mpeg4" "yuv420p" true in
  snd r = inl wrong_shape /\ muxed (fst r) = [] /\ closed (fst r) = false.
Proof.
  split; [vm_compute; lia | split; [discriminate | split; [reflexivity | ]]].
  apply (@export_malformed_first_frame two_color_axes [ramp22] "out.avi" 30
           None None None "mpeg4" "yuv420p" true);
    [vm_compute; lia | discriminate | reflexivity].
Defined.

(** X9: with [bitrate=None], a first frame of rank 0 or 1 makes [export]
    raise IndexError from the bitrate estimate of line 59, before the shape
    test that would report a wrong shape; the stream has been given nothing
    and the container stays open. *)
Theorem export_first_frame_without_two_axes :
  forall img rest fname rate width height codec format autoscale,
    (ndim img < 2)%nat ->
    let r := export (img :: rest) fname rate None width height codec format autoscale in
    snd r = inl tuple_index_error /\
    bit_rate (fst r) = None /\ stream_width (fst r) = None /\
    stream_height (fst r) = None /\ muxed (fst r) = [] /\ closed (fst r) = false.
Proof.
  intros img rest fname rate width height codec format autoscale Hn r. subst r.
  rewrite export_unfold. cbn [export_loop]. unfold export_frame. cbn [Nat.eqb].
  rewrite !run_bind. unfold setup_stream, _estimate_bitrate, ndim in *.
  destruct (shape img) as [| h0 [| w0 tl]]; simpl in Hn; try lia;
    cbn; repeat split.
Qed.

Lemma export_first_frame_without_two_axes_witness :
  (ndim row3 < 2)%nat /\
  let r := export [row3] "out.avi" 30 None None None "mpeg4" "yuv420p" true in
  snd r = inl tuple_index_error /\
  bit_rate (fst r) = None /\ stream_width (fst r) = None /\
  stream_height (fst r) = None /\ muxed (fst r) = [] /\ closed (fst r) = false.
Proof.
  split; [vm_compute; lia | ].
  apply (@export_first_frame_without_two_axes row3 [] "out.avi" 30 None None
           "mpeg4" "yuv420p" true). vm_compute; lia.
Defined.

(** * Brightness normalisation *)

(** ** Minimum and maximum of finite elements *)

Lemma fold_min_finite xs : forall x0,
  Forall (fun x => is_fin x = true) xs ->
  exists m, fold_left num_min xs (Fin x0) = Fin m /\
            In (Fin m) (Fin x0 :: xs) /\
            forall q, In (Fin q) (Fin x0 :: xs) -> (m <= q)%Q.
Proof.
  induction xs as [| y ys IH]; intros x0 Hfin.
  - exists x0. split; [reflexivity | split; [now left | ]].
    intros q [E | []]. inversion E. apply Qle_refl.
  - inversion Hfin as [| ? ? Hy Hys]; subst.
    destruct y as [qy | | | | ]; try discriminate. cbn [fold_left].
    assert (E : exists z, num_min (Fin x0) (Fin qy) = Fin z /\
                          (z = x0 \/ z = qy) /\ (z <= x0)%Q /\ (z <= qy)%Q).
    { unfold num_min. cbn. destruct (Qle_bool x0 qy) eqn:Ele.
      - exists x0. apply Qle_bool_iff in Ele. repeat split; auto. apply Qle_refl.
      - exists qy. repeat split; auto; [ | apply Qle_refl ].
        apply Qlt_le_weak, Qnot_le_lt. intros Hle.
        apply Qle_bool_iff in Hle. congruence. }
    destruct E as (z & -> & Hz & Hzx & Hzy).
    destruct (IH z Hys) as (m & Em & Hin & Hle).
    exists m. split; [exact Em | split].
    + destruct Hin as [Hin | Hin].
      * inversion Hin; subst. destruct Hz as [-> | ->]; [now left | right; now left].
      * right; now right.
    + intros q Hq. pose proof (Hle z (or_introl eq_refl)) as Hmz.
      destruct Hq as [Hq | [Hq | Hq]].
      * inversion Hq; subst. eapply Qle_trans; eassumption.
      * inversion Hq; subst. eapply Qle_trans; eassumption.
      * apply Hle. now right.
Qed.

Lemma fold_max_finite xs : forall x0,
  Forall (fun x => is_fin x = true) xs ->
  exists m, fold_left num_max xs (Fin x0) = Fin m /\
            In (Fin m) (Fin x0 :: xs) /\
            forall q, In (Fin q) (Fin x0 :: xs) -> (q <= m)%Q.
Proof.
  induction xs as [| y ys IH]; intros x0 Hfin.
  - exists x0. split; [reflexivity | split; [now left | ]].
    intros q [E | []]. inversion E. apply Qle_refl.
  - inversion Hfin as [| ? ? Hy Hys]; subst.
    destruct y as [qy | | | | ]; try discriminate. cbn [fold_left].
    assert (E : exists z, num_max (Fin x0) (Fin qy) = Fin z /\
                          (z = x0 \/ z = qy) /\ (x0 <= z)%Q /\ (qy <= z)%Q).
    { unfold num_max. cbn. destruct (Qle_bool x0 qy) eqn:Ele.
      - exists qy. apply Qle_bool_iff in Ele. repeat split; auto. apply Qle_refl.
      - exists x0. repeat split; auto; [apply Qle_refl | ].
        apply Qlt_le_weak, Qnot_le_lt. intros Hle.
        apply Qle_bool_iff in Hle. congruence. }
    destruct E as (z & -> & Hz & Hzx & Hzy).
    destruct (IH z Hys) as (m & Em & Hin & Hle).
    exists m. split; [exact Em | split].
    + destruct Hin as [Hin | Hin].
      * inversion Hin; subst. destruct Hz as [-> | ->]; [now left | right; now left].
      * right; now right.
    + intros q Hq. pose proof (Hle z (or_introl eq_refl)) as Hmz.
      destruct Hq as [Hq | [Hq | Hq]].
      * inversion Hq; subst. eapply Qle_trans; eassumption.
      * inversion Hq; subst. eapply Qle_trans; eassumption.
      * apply Hle. now right.
Qed.

Lemma fits_finite d x : fits d x = true -> exists q, x = Fin q.
Proof.
  destruct x as [q | | | | ]; [now exists q | | | | ];
    destruct d; discriminate.
Qed.

Lemma well_typed_items a :
  well_typed a = true ->
  forall idx, In idx (indices (shape a)) -> fits (dtype_of a) (item a idx) = true.
Proof.
  unfold well_typed, elements. rewrite forallb_forall. intros H idx Hin.
  apply H. now apply in_map.
Qed.

Lemma element_elements a x : element a x <-> In x (elements a).
Proof.
  unfold element, elements. rewrite in_map_iff. split.
  - intros (idx & Hin & E). now exists idx.
  - intros (idx & E & Hin). now exists idx.
Qed.

Lemma finite_elements a :
  (forall idx, In idx (indices (shape a)) -> exists q, item a idx = Fin q) ->
  Forall (fun x => is_fin x = true) (elements a).
Proof.
  intros H. apply Forall_elements. intros idx Hin.
  destruct (H idx Hin) as (q & ->). reflexivity.
Qed.

(** The minimum of a non-empty array of finite numbers is one of its
    elements and is below all of them; likewise the maximum. *)
Lemma amin_finite a :
  indices (shape a) <> [] ->
  (forall idx, In idx (indices (shape a)) -> exists q, item a idx = Fin q) ->
  exists lo, amin a = inr (Fin lo) /\ element a (Fin lo) /\
             forall q, element a (Fin q) -> (lo <= q)%Q.
Proof.
  intros Hne Hfin. pose proof (finite_elements a Hfin) as HF.
  pose proof (elements_nonempty a Hne) as Hel.
  unfold amin, reduce. setoid_rewrite element_elements.
  destruct (elements a) as [| x xs]; [congruence | ].
  inversion HF as [| ? ? Hx Hxs]; subst.
  destruct x as [x0 | | | | ]; try discriminate.
  destruct (fold_min_finite x0 Hxs) as (m & E & Hin & Hle).
  exists m. rewrite E. auto.
Qed.

Lemma amax_finite a :
  indices (shape a) <> [] ->
  (forall idx, In idx (indices (shape a)) -> exists q, item a idx = Fin q) ->
  exists hi, amax a = inr (Fin hi) /\ element a (Fin hi) /\
             forall q, element a (Fin q) -> (q <= hi)%Q.
Proof.
  intros Hne Hfin. pose proof (finite_elements a Hfin) as HF.
  pose proof (elements_nonempty a Hne) as Hel.
  unfold amax, reduce. setoid_rewrite element_elements.
  destruct (elements a) as [| x xs]; [congruence | ].
  inversion HF as [| ? ? Hx Hxs]; subst.
  destruct x as [x0 | | | | ]; try discriminate.
  destruct (fold_max_finite x0 Hxs) as (m & E & Hin & Hle).
  exists m. rewrite E. auto.
Qed.

(** ** Subtracting the minimum in the array's own type *)

Lemma Qtrunc_integer q z : (q == inject_Z z)%Q -> Qtrunc q = z.
Proof.
  unfold Qeq, Qtrunc. simpl. intros H. rewrite Z.mul_1_r in H. rewrite H.
  apply Z.quot_mul. discriminate.
Qed.

Lemma is_uint_value bits q :
  is_uint bits (Fin q) = true ->
  exists z, q = inject_Z z /\ 0 <= z < 2 ^ bits.
Proof.
  destruct q as [n d]. unfold is_uint. cbn [Qden Qnum]. intros H.
  apply andb_prop in H as [H H2]. apply andb_prop in H as [H0 H1].
  apply Pos.eqb_eq in H0. subst d. exists n. split; [reflexivity | ].
  apply Z.leb_le in H1. apply Z.ltb_lt in H2. lia.
Qed.

Lemma to_unsigned_difference bits x lo :
  is_uint bits (Fin x) = true -> is_uint bits (Fin lo) = true -> (lo <= x)%Q ->
  exists r, to_unsigned bits (num_sub (Fin x) (Fin lo)) = Fin r /\ (r == x - lo)%Q.
Proof.
  intros Hx Hlo Hle.
  destruct (is_uint_value bits x Hx) as (zx & -> & Hzx).
  destruct (is_uint_value bits lo Hlo) as (zl & -> & Hzl).
  assert (Hzle : zl <= zx) by (rewrite <- Zle_Qle in Hle; exact Hle).
  unfold num_sub, num_opp, num_add, fin, to_unsigned, of_Z.
  eexists. split; [reflexivity | ].
  rewrite (Qtrunc_integer (z := zx - zl)).
  - rewrite Z.mod_small by lia. unfold Z.sub. rewrite inject_Z_plus, inject_Z_opp.
    reflexivity.
  - rewrite !Qred_correct. unfold Z.sub. rewrite inject_Z_plus, inject_Z_opp.
    reflexivity.
Qed.

(** [x - lo] computed in the dtype of the array holds the difference. *)
Lemma cast_difference d x lo :
  fits d (Fin x) = true -> fits d (Fin lo) = true -> (lo <= x)%Q ->
  exists r, cast d (num_sub (Fin x) (Fin lo)) = Fin r /\ (r == x - lo)%Q.
Proof.
  destruct d; cbn [fits cast]; intros Hx Hlo Hle.
  - now apply to_unsigned_difference.
  - now apply to_unsigned_difference.
  - unfold num_sub, num_opp, num_add, fin. eexists. split; [reflexivity | ].
    rewrite !Qred_correct. reflexivity.
Qed.

(** ** Arrays that are not flat *)

Lemma forallb_false A (f : A -> bool) l :
  forallb f l = false -> exists x, In x l /\ f x = false.
Proof.
  induction l as [| y l IH]; simpl; [discriminate | ].
  destruct (f y) eqn:E; simpl.
  - intros H. destruct (IH H) as (x & Hin & Hx). exists x. auto.
  - intros _. exists y. auto.
Qed.

Lemma not_flat_two_values a :
  indices (shape a) <> [] ->
  (forall idx, In idx (indices (shape a)) -> exists q, item a idx = Fin q) ->
  is_flat a = false ->
  exists x y, element a (Fin x) /\ element a (Fin y) /\ ~ (x == y)%Q.
Proof.
  intros Hne Hfin Hflat. pose proof (finite_elements a Hfin) as HF.
  pose proof (elements_nonempty a Hne) as Hel.
  unfold is_flat in Hflat. setoid_rewrite element_elements.
  destruct (elements a) as [| x0 xs]; [congruence | ].
  destruct (forallb_false _ _ Hflat) as (y & Hin & Hy).
  rewrite Forall_forall in HF.
  pose proof (HF x0 (or_introl eq_refl)) as H0. pose proof (HF y Hin) as H1.
  destruct x0 as [q0 | | | | ]; try discriminate.
  destruct y as [q | | | | ]; try discriminate.
  exists q0, q. split; [now left | split; [exact Hin | ]].
  intros E. apply Qeq_bool_iff in E. simpl in Hy. congruence.
Qed.

Lemma Qzero_positive p : (0 < p)%Q -> Qzero p = false.
Proof.
  unfold Qlt, Qzero. simpl. intros H. apply Z.eqb_neq. lia.
Qed.

(** The quotient [(a - lo) / (hi - lo)] that both normalisations compute,
    for an array of values of its dtype that is not flat: the divisor is
    positive, every quotient is between 0 and 1, the minimum goes to 0 and
    the maximum to 1. *)
Lemma rescaled_to_unit a :
  indices (shape a) <> [] ->
  (forall idx, In idx (indices (shape a)) -> fits (dtype_of a) (item a idx) = true) ->
  is_flat a = false ->
  exists lo hi p,
    amin a = inr (Fin lo) /\ amax a = inr (Fin hi) /\
    cast (dtype_of a) (num_sub (Fin hi) (Fin lo)) = Fin p /\ (0 < p)%Q /\
    let normed := div_scalar (sub_scalar a (Fin lo)) (Fin p) in
    (forall idx, In idx (indices (shape a)) ->
       exists v, item normed idx = Fin (Qred v) /\ (0 <= v <= 1)%Q) /\
    element normed (Fin 0) /\ element normed (Fin 1).
Proof.
  intros Hne Hty Hflat.
  assert (Hfin : forall idx, In idx (indices (shape a)) -> exists q, item a idx = Fin q)
    by (intros idx Hin; eapply fits_finite; eauto).
  destruct (amin_finite a Hne Hfin) as (lo & Elo & (ilo & Hilo & Eilo) & Hlo).
  destruct (amax_finite a Hne Hfin) as (hi & Ehi & (ihi & Hihi & Eihi) & Hhi).
  destruct (not_flat_two_values a Hne Hfin Hflat) as (x & y & Hx & Hy & Hxy).
  assert (Hlt : (lo < hi)%Q).
  { pose proof (Hlo x Hx). pose proof (Hlo y Hy).
    pose proof (Hhi x Hx). pose proof (Hhi y Hy).
    destruct (Qlt_le_dec lo hi) as [Hl | Hl]; [exact Hl | ].
    exfalso. apply Hxy. lra. }
  assert (Tlo : fits (dtype_of a) (Fin lo) = true) by (rewrite <- Eilo; auto).
  assert (Thi : fits (dtype_of a) (Fin hi) = true) by (rewrite <- Eihi; auto).
  destruct (@cast_difference (dtype_of a) hi lo Thi Tlo (Qlt_le_weak _ _ Hlt))
    as (p & Ep & Hp).
  assert (Hpos : (0 < p)%Q) by lra.
  assert (Hitem : forall idx q, In idx (indices (shape a)) -> item a idx = Fin q ->
            exists r, item (div_scalar (sub_scalar a (Fin lo)) (Fin p)) idx
                      = Fin (Qred (r / p)) /\ (r == q - lo)%Q).
  { intros idx q Hin Eq. cbn [div_scalar sub_scalar map_items item dtype_of].
    rewrite Eq.
    assert (Tq : fits (dtype_of a) (Fin q) = true) by (rewrite <- Eq; auto).
    destruct (@cast_difference (dtype_of a) q lo Tq Tlo) as (r & -> & Hr).
    { apply Hlo. now exists idx. }
    exists r. split; [ | exact Hr ].
    unfold num_div. rewrite (Qzero_positive Hpos). reflexivity. }
  exists lo, hi, p. repeat split; try assumption.
  - intros idx Hin. destruct (Hfin idx Hin) as (q & Eq).
    destruct (Hitem idx q Hin Eq) as (r & E & Hr).
    exists (r / p)%Q. split; [exact E | ].
    assert (lo <= q)%Q by (apply Hlo; now exists idx).
    assert (q <= hi)%Q by (apply Hhi; now exists idx).
    split; [apply Qle_shift_div_l | apply Qle_shift_div_r]; lra.
  - exists ilo. split; [exact Hilo | ].
    destruct (Hitem ilo lo Hilo Eilo) as (r & E & Hr). rewrite E.
    f_equal. change 0%Q with (Qred 0). apply Qred_complete.
    rewrite Hr. field. lra.
  - exists ihi. split; [exact Hihi | ].
    destruct (Hitem ihi hi Hihi Eihi) as (r & E & Hr). rewrite E.
    f_equal. change 1%Q with (Qred 1). apply Qred_complete.
    rewrite Hr, Hp. field. lra.
Qed.

(** ** The range of the two normalisations *)



Lemma Qtrunc_bounds q n :
  (0 <= q)%Q -> (q <= inject_Z n)%Q -> 0 <= Qtrunc q <= n.
Proof.
  intros H0 Hn.
  assert (E : Qtrunc q = Qfloor q).
  { destruct q as [a d]. unfold Qtrunc, Qfloor. cbn [Qnum Qden].
    apply Z.quot_div_nonneg; [ | lia ].
    unfold Qle in H0. simpl in H0. lia. }
  rewrite E. split.
  - change 0 with (Qfloor 0). now apply Qfloor_resp_le.
  - rewrite <- (Qfloor_Z n). now apply Qfloor_resp_le.
Qed.



(** ** Normalising twice *)





(** * Further properties of [wavelength_to_rgb] *)

Lemma search_down_at_least p fuel k k0 :
  p k0 = true -> k0 <= k -> k - Z.of_nat fuel < k0 ->
  k0 <= search_down p fuel k.
Proof.
  intros Hp Hle Hfuel.
  destruct (Z_le_gt_dec k0 (search_down p fuel k)) as [H | H]; [exact H | ].
  assert (Hf : p k0 = false) by (apply (@search_down_greatest p fuel k k0); lia).
  congruence.
Qed.

Lemma fifth_power_bound (x : Q) : (256 <= x)%Q -> ~ (x ^ 5 <= 255 ^ 5)%Q.
Proof.
  intros H. simpl. intros H5.
  assert (65536 <= x * x)%Q by nra.
  assert (65536 * 65536 <= (x * x) * (x * x))%Q by nra.
  assert (65536 * 65536 * 256 <= x * ((x * x) * (x * x)))%Q by nra.
  lra.
Qed.

(** With the default gamma, a channel [255 * b ** 0.8] whose base is between
    0.3 and 1 is an integer from 1 to 255. *)
Lemma uint8_of_attenuated b :
  (3 # 10 <= b)%Q -> (b <= 1)%Q ->
  1 <= uint8_of_float gamma_default (times (pow b) 255) <= 255.
Proof.
  intros Hlo Hhi. unfold uint8_of_float, floor_pow.
  cbn [g_num g_den gamma_default times pow coeff base].
  set (bound := Qfloor _).
  set (p := fun k : Z => Qle_bool _ _).
  assert (Hb2 : (9 # 100 <= b * b)%Q) by nra.
  assert (Hb4 : (81 # 10000 <= (b * b) * (b * b))%Q) by nra.
  assert (Hb2' : (b * b <= 1)%Q) by nra.
  assert (Hb4' : ((b * b) * (b * b) <= 1)%Q) by nra.
  assert (Hbound : 255 <= bound).
  { subst bound. apply (Z.le_trans _ (Qfloor 255%Q)); [discriminate | ].
    apply Qfloor_resp_le.
    change ((1 + b) ^ 4)%Q with (((1 + b) * (1 + b)) * ((1 + b) * (1 + b)))%Q.
    assert (1 <= (1 + b) * (1 + b))%Q by nra.
    assert (1 <= ((1 + b) * (1 + b)) * ((1 + b) * (1 + b)))%Q by nra.
    lra. }
  assert (Hp1 : p 1 = true).
  { subst p. cbv beta. apply Qle_bool_iff.
    change (inject_Z 1 ^ 5)%Q with 1%Q.
    change ((1 * 255) ^ 5)%Q with 1078203909375%Q.
    change (b ^ 4)%Q with ((b * b) * (b * b))%Q. lra. }
  pose proof (@search_down_at_least p (Z.to_nat bound + 1) bound 1 Hp1) as Hge.
  assert (Hr1 : 1 <= search_down p (Z.to_nat bound + 1) bound) by (apply Hge; lia).
  assert (Hr2 : search_down p (Z.to_nat bound + 1) bound <= 255).
  { destruct (search_down_sound p (Z.to_nat bound + 1) bound) as [Hs | Hs]; [ | lia ].
    destruct (Z_le_gt_dec (search_down p (Z.to_nat bound + 1) bound) 255) as [H | H];
      [exact H | exfalso ].
    subst p. cbv beta in Hs. apply Qle_bool_iff in Hs.
    apply (@fifth_power_bound (inject_Z (search_down
             (fun k : Z => Qle_bool (inject_Z k ^ 5) ((1 * 255) ^ 5 * b ^ 4))
             (Z.to_nat bound + 1) bound))).
    - change 256%Q with (inject_Z 256). rewrite <- Zle_Qle. lia.
    - eapply Qle_trans; [exact Hs | ].
      change ((1 * 255) ^ 5)%Q with 1078203909375%Q.
      change (255 ^ 5)%Q with 1078203909375%Q.
      change (b ^ 4)%Q with ((b * b) * (b * b))%Q. lra. }
  rewrite Z.mod_small by lia. lia.
Qed.

Lemma between_true lo hi w : between lo hi w = true -> (lo <= w)%Q /\ (w <= hi)%Q.
Proof.
  unfold between. intros H. apply andb_prop in H as [H1 H2].
  split; now apply Qle_bool_iff.
Qed.

Lemma between_false lo hi w : between lo hi w = false -> (w < lo)%Q \/ (hi < w)%Q.
Proof.
  unfold between. intros H. apply andb_false_iff in H as [H | H].
  - left. apply Qnot_le_lt. intros Hle. apply Qle_bool_iff in Hle. congruence.
  - right. apply Qnot_le_lt. intros Hle. apply Qle_bool_iff in Hle. congruence.
Qed.

Ltac split_channels :=
  match goal with
  | HR : _ = fst (fst (0, 0, 0)), HG : _ = snd (fst (0, 0, 0)),
    HB : _ = snd (0, 0, 0) |- _ =>
      cbv beta iota zeta in HR, HG, HB; cbn [fst snd] in HR, HG, HB
  end.

(** X13: with the default gamma, [wavelength_to_rgb] returns black exactly
    for the wavelengths outside 380-750 nm: inside the range at least one
    channel is not 0. *)
Theorem wavelength_black_iff_outside :
  forall w,
    wavelength_to_rgb w gamma_default = (0, 0, 0) <-> (w < 380 \/ 750 < w)%Q.
Proof.
  intros w. split.
  - intros Hblack.
    destruct (Qlt_le_dec w 380) as [H1 | H1]; [now left | ].
    destruct (Qlt_le_dec 750 w) as [H2 | H2]; [now right | exfalso ].
    assert (Hone : uint8_of_float gamma_default (times (lit 1) 255) = 255)
      by (vm_compute; reflexivity).
    unfold wavelength_to_rgb in Hblack.
    pose proof (f_equal (fun t => fst (fst t)) Hblack) as HR.
    pose proof (f_equal (fun t => snd (fst t)) Hblack) as HG.
    pose proof (f_equal snd Hblack) as HB. clear Hblack.
    destruct (between 380 440 w) eqn:B1.
    { apply between_true in B1 as [Ha Hb]. split_channels.
      pose proof (@uint8_of_attenuated
                    (1 * ((3 # 10) + (7 # 10) * (w - 380) / (440 - 380)))%Q) as Hp.
      rewrite HB in Hp.
      assert (1 <= 0 <= 255); [ | lia ].
      apply Hp; unfold Qdiv; change (/ (440 - 380))%Q with (1 # 60)%Q; lra. }
    destruct (between 440 490 w) eqn:B2.
    { split_channels. rewrite Hone in HB. discriminate. }
    destruct (between 490 510 w) eqn:B3.
    { split_channels. rewrite Hone in HG. discriminate. }
    destruct (between 510 580 w) eqn:B4.
    { split_channels. rewrite Hone in HG. discriminate. }
    destruct (between 580 645 w) eqn:B5.
    { split_channels. rewrite Hone in HR. discriminate. }
    destruct (between 645 750 w) eqn:B6.
    { apply between_true in B6 as [Ha Hb]. split_channels.
      pose proof (@uint8_of_attenuated
                    (1 * ((3 # 10) + (7 # 10) * (750 - w) / (750 - 645)))%Q) as Hp.
      rewrite HR in Hp.
      assert (1 <= 0 <= 255); [ | lia ].
      apply Hp; unfold Qdiv; change (/ (750 - 645))%Q with (1 # 105)%Q; lra. }
    apply between_false in B1, B2, B3, B4, B5, B6. lra.
  - intros H. unfold wavelength_to_rgb.
    assert (Hlt : forall lo hi, (380 <= lo)%Q -> (hi <= 750)%Q -> between lo hi w = false).
    { intros lo hi Hlo Hhi. apply between_outside.
      destruct H as [H | H]; [left | right]; lra. }
    rewrite !Hlt by (unfold Qle; simpl; lia).
    rewrite !uint8_of_zero. reflexivity.
Qed.

(** * Further properties of [to_rgb] *)

(** X14: [to_rgb] never returns an image for an input that is not
    multichannel, whatever [wavelengths] and [normalize] are: an empty list of
    wavelengths raises the "Not enough wavelength values" IndexError, and every
    other argument reaches line 369 and raises UnboundLocalError. *)
Theorem to_rgb_single_channel_never_returns :
  forall image wavelengths normalize,
    is_multichannel image = false ->
    to_rgb image wavelengths normalize
    = raise (if Nat.eqb (supplied wavelengths) 0 then not_enough
             else UnboundLocalError "i").
Proof.
  intros image wavelengths normalize H.
  unfold to_rgb, tints, combine, channels. rewrite H.
  destruct wavelengths as [| nm | [| nm nms]]; reflexivity.
Qed.

Lemma to_rgb_single_channel_never_returns_witness :
  is_multichannel frame34 = false /\
  to_rgb frame34 (WList [550%Q]) false
  = raise (if Nat.eqb (supplied (WList [550%Q])) 0 then not_enough
           else UnboundLocalError "i").
Proof.
  split; [reflexivity | ].
  apply (to_rgb_single_channel_never_returns frame34 (WList [550%Q]) false).
  reflexivity.
Defined.

(** ** The shape and dtype of a multichannel result *)

Lemma _normalize_succeeds a :
  indices (shape a) <> [] ->
  exists out, _normalize a = inr out /\ shape out = shape a.
Proof.
  intros Hne. unfold _normalize, amin, amax.
  destruct (reduce_succeeds num_max a Hne) as (hi & ->).
  destruct (reduce_succeeds num_min a Hne) as (lo & ->).
  cbn [bind ret]. eexists. split; reflexivity.
Qed.

Lemma multiply_succeeds s a rgb :
  shape a = s ++ [3%nat] ->
  exists out, np.multiply a (tuple3 rgb) = inr out /\ shape out = shape a.
Proof.
  intros Hs. unfold np.multiply, ndim. rewrite Hs, last_last, length_app.
  assert (Hl : length (tuple3 rgb) = 3%nat) by (destruct rgb as [[? ?] ?]; reflexivity).
  rewrite Hl. cbn [length Nat.eqb]. rewrite Nat.add_comm. cbn [Nat.add Nat.eqb negb andb].
  eexists. split; reflexivity.
Qed.

Lemma _monochannel_to_rgb_succeeds channel rgb :
  indices (shape channel) <> [] ->
  exists mono, _monochannel_to_rgb channel rgb = inr mono /\
               shape mono = shape channel ++ [3%nat] /\ dtype_of mono = uint8.
Proof.
  intros Hne. unfold _monochannel_to_rgb.
  destruct (_normalize_succeeds channel Hne) as (n1 & -> & Hs1). cbn [bind].
  destruct (@expand_repeat_last n1 (-1) (-1)) as (n2 & E2 & Hs2 & _ & _);
    try (now right).
  unfold bind in E2 |- *.
  destruct (np.expand_dims n1 (-1)) as [e | x]; [discriminate | ].
  rewrite E2.
  destruct (@multiply_succeeds (shape n1) n2 rgb Hs2) as (n3 & -> & Hs3).
  eexists. split; [reflexivity | ]. cbn [shape astype map_items dtype_of].
  split; [congruence | reflexivity].
Qed.

Lemma accumulate_succeeds image rgbs n0 s range :
  shape image = n0 :: s ->
  indices s <> [] ->
  (forall k, In k range -> (k < n0)%nat /\ (k < length rgbs)%nat) ->
  forall result i,
    shape result = s ++ [3%nat] ->
    exists r i',
      accumulate image rgbs range result i = inr (r, i') /\
      shape r = s ++ [3%nat] /\ dtype_of r = dtype_of result.
Proof.
  intros Hshape Hne.
  induction range as [| k range IH]; intros Hk result i Hs.
  - exists result, i. repeat split; assumption.
  - cbn [accumulate].
    destruct (Hk k (or_introl eq_refl)) as [Hk0 Hk1].
    unfold getitem0. rewrite Hshape.
    apply Nat.ltb_lt in Hk0. rewrite Hk0. cbn [bind ret].
    destruct (@getitem_some _ "list" rgbs k Hk1) as (rgb & ->). cbn [bind].
    match goal with
    | |- context [_monochannel_to_rgb ?c rgb] =>
        destruct (@_monochannel_to_rgb_succeeds c rgb Hne) as (mono & -> & Hsm & _)
    end.
    cbn [bind shape] in *. unfold iadd. rewrite Hs, Hsm.
    destruct (list_eq_dec Nat.eq_dec _ _) as [_ | Hx]; [ | congruence ].
    cbn [bind ret].
    match goal with
    | |- context [accumulate image rgbs range ?r ?j] =>
        destruct (IH (fun k' H => Hk k' (or_intror H)) r j eq_refl)
          as (r' & i' & E & Hs' & Hd')
    end.
    exists r', i'. repeat split; assumption.
Qed.

(** X15: for a multichannel image with no empty axis and enough tints,
    [to_rgb] returns an array shaped like one channel with a last axis of
    length 3; it is uint8 with [normalize=True], and with [normalize=False]
    it is the uint16 accumulator itself, returned without a conversion to 8
    bits. *)
Theorem to_rgb_multichannel_result :
  forall image wavelengths normalize,
    is_multichannel image = true ->
    nonempty image = true ->
    (channels image <= supplied wavelengths)%nat ->
    exists out,
      to_rgb image wavelengths normalize = inr out /\
      shape out = tl (shape image) ++ [3%nat] /\
      dtype_of out = if normalize then uint8 else uint16.
Proof.
  intros image wavelengths normalize Hmulti Hne Hsup.
  unfold nonempty in Hne.
  assert (Hch : channels image = hd 0%nat (shape image))
    by (unfold channels; now rewrite Hmulti).
  unfold is_multichannel, ndim in Hmulti.
  destruct (shape image) as [| n0 s] eqn:Hshape; [discriminate | ].
  cbn [hd tl forallb] in *. apply andb_prop in Hne as [Hn0 Hs].
  apply Nat.ltb_lt in Hn0.
  assert (Hlen : length (tints image wavelengths) = channels image).
  { rewrite length_tints. destruct wavelengths; simpl in *; lia. }
  pose proof (indices_nonempty s Hs) as Hse.
  destruct (@accumulate_succeeds image (tints image wavelengths) n0 s
              (seq 0 (channels image)) Hshape Hse)
    with (result := np.zeros (shape_rgb image) uint16) (i := @None nat)
    as (r & i' & Eacc & Hsr & Hdr).
  { intros k Hk. apply in_seq in Hk. lia. }
  { unfold shape_rgb, is_multichannel, ndim. rewrite Hshape. cbn [hd tl].
    rewrite Hmulti. reflexivity. }
  assert (Hm : is_multichannel image = true)
    by (unfold is_multichannel, ndim; rewrite Hshape; exact Hmulti).
  unfold to_rgb. rewrite Hlen, Nat.eqb_refl. cbn [negb].
  unfold combine. rewrite Hm, Eacc. cbn [bind ret fst andb].
  destruct normalize.
  - destruct (reduce_succeeds num_max r) as (norm & E).
    { rewrite Hsr. apply indices_app_nonempty; [exact Hse | lia]. }
    unfold amax. rewrite E. cbn [bind ret]. eexists.
    split; [reflexivity | ]. split; [exact Hsr | reflexivity].
  - exists r. split; [reflexivity | ]. split; [exact Hsr | exact Hdr].
Qed.

Lemma to_rgb_multichannel_result_witness :
  is_multichannel two_channels = true /\
  nonempty two_channels = true /\
  (channels two_channels <= supplied WNone)%nat /\
  exists out,
    to_rgb two_channels WNone false = inr out /\
    shape out = tl (shape two_channels) ++ [3%nat] /\
    dtype_of out = if false then uint8 else uint16.
Proof.
  split; [reflexivity | split; [reflexivity | split; [vm_compute; lia | ]]].
  apply (@to_rgb_multichannel_result two_channels WNone false);
    solve [reflexivity | vm_compute; lia].
Defined.

(** * Sequences of colour frames, and sequences that fail part-way *)

Lemma color_frame_color img :
  ndim img = 3%nat -> count (shape img) 3 = 1%nat ->
  exists c out,
    index (shape img) 3 = inr c /\
    color_frame (Some 3%nat) img = inr out /\
    shape out = delete_at (shape img) c ++ [3%nat] /\
    dtype_of out = dtype_of img.
Proof.
  destruct img as [d s f]. unfold ndim. cbn [shape dtype_of].
  intros Hn Hc. destruct (shape_of_rank3 s Hn) as (a & b & c & ->).
  unfold color_frame, count in *. cbn [shape] in *. simpl count_occ in *.
  destruct (Nat.eq_dec a 3) as [-> | Ha];
    destruct (Nat.eq_dec b 3) as [-> | Hb];
    destruct (Nat.eq_dec c 3) as [-> | Hc3]; try discriminate; clear Hc.
  - apply Nat.eqb_neq in Hb. eexists 0%nat, _. simpl. rewrite ?Hb.
    repeat split; reflexivity.
  - apply Nat.eqb_neq in Ha. eexists 1%nat, _. simpl. rewrite ?Ha.
    repeat split; reflexivity.
  - apply Nat.eqb_neq in Ha, Hb. eexists 2%nat, _. simpl. rewrite ?Ha, ?Hb.
    repeat split; reflexivity.
Qed.

Lemma delete_at_nonempty s c :
  forallb (Nat.ltb 0) s = true ->
  forallb (Nat.ltb 0) (delete_at s c ++ [3%nat]) = true.
Proof.
  intros H. unfold delete_at. rewrite !forallb_app.
  rewrite <- (firstn_skipn c s), forallb_app in H.
  apply andb_prop in H as [H1 H2]. rewrite H1. cbn [forallb andb].
  destruct (skipn c s) as [| x l] eqn:E.
  - rewrite (skipn_all2 s) by
      (apply (f_equal (@length nat)) in E; rewrite length_skipn in E; simpl in E; lia).
    reflexivity.
  - replace (skipn (S c) s) with l.
    + cbn [forallb] in H2. apply andb_prop in H2 as [_ H2]. now rewrite H2.
    + change (S c) with (1 + c)%nat. rewrite <- skipn_skipn, E. reflexivity.
Qed.

Lemma color_step rate width height n img l o :
  l_ndim l = Some 3%nat -> color_ok img = true ->
  exists frame,
    export_frame rate width height true (S n) img l o
    = (fst (encode_and_mux frame o), inr l) /\
    accepted_as_color img frame.
Proof.
  intros Hl Hok. unfold color_ok in Hok.
  apply andb_prop in Hok as [Hok Hne]. apply andb_prop in Hok as [Hn Hc].
  apply Nat.eqb_eq in Hn, Hc.
  destruct (color_frame_color img Hn Hc) as (c & colored & Ei & Ec & Hs & Hd).
  destruct (@scale_frame_succeeds colored) as (frame & Es & Hsf & Hdf).
  { rewrite Hs. apply indices_nonempty, delete_at_nonempty, Hne. }
  exists frame. split; [ | exists c; repeat split; congruence ].
  unfold export_frame. cbn [Nat.eqb]. rewrite !run_bind. cbn [io_ret].
  rewrite Hl. unfold lift at 1. rewrite Ec. rewrite run_bind.
  unfold lift at 1. rewrite Es. reflexivity.
Qed.

Lemma color_loop rate width height rest :
  forall n l o,
    l_ndim l = Some 3%nat ->
    forallb color_ok rest = true ->
    exists o' frames,
      export_loop rate width height true (S n) rest l o = (o', inr tt) /\
      closed o' = closed o /\
      muxed o' = muxed o ++ frames /\
      Forall2 accepted_as_color rest frames.
Proof.
  induction rest as [| img rest IH]; intros n l o Hl Hall.
  - exists o, []. cbn. rewrite app_nil_r. repeat split. constructor.
  - cbn [forallb] in Hall. apply andb_prop in Hall as [Himg Hrest].
    destruct (@color_step rate width height n img l o Hl Himg) as (frame & E & Hacc).
    destruct (IH (S n) l (fst (encode_and_mux frame o)) Hl Hrest)
      as (o' & frames & E' & Hc & Hm & HF).
    exists o', (frame :: frames).
    cbn [export_loop]. rewrite run_bind, E, E'.
    split; [reflexivity | ]. split; [exact Hc | ]. split.
    + rewrite Hm. cbn [encode_and_mux update fst muxed].
      now rewrite <- app_assoc.
    + now constructor.
Qed.

(** X16: when every frame of the sequence has rank 3, exactly one axis of
    length 3 and no empty axis, and autoscaling is on, [export] returns
    normally, closes the container, and has muxed one uint8 frame per input
    frame, in order, each with the colour axis of its frame moved to the end
    (the colour axis may be a different one from frame to frame; the
    container of the model takes every frame it is handed). *)
Theorem export_color_sequence :
  forall img rest fname rate b width height codec format,
    forallb color_ok (img :: rest) = true ->
    exists o,
      export (img :: rest) fname rate b width height codec format true
      = (o, inr tt) /\
      closed o = true /\
      Forall2 accepted_as_color (img :: rest) (muxed o).
Proof.
  intros img rest fname rate b width height codec format Hall.
  cbn [forallb] in Hall. apply andb_prop in Hall as [Himg Hrest].
  pose proof Himg as Hok. unfold color_ok in Hok.
  apply andb_prop in Hok as [Hok Hne]. apply andb_prop in Hok as [Hn Hc].
  apply Nat.eqb_eq in Hn, Hc.
  rewrite export_unfold.
  set (o1 := fst (set_pix_fmt format (av_open fname codec rate))).
  pose proof (@nonempty_axes_positive (shape img) (nonempty_indices img Hne)) as Hpos.
  pose proof Hn as Hn'. unfold ndim in Hn'.
  destruct (shape img) as [| h0 [| w0 tl]] eqn:Es; try discriminate.
  assert (Hw0 : w0 <> 0%nat).
  { inversion Hpos as [| ? ? _ Hp]; subst. inversion Hp; subst. lia. }
  rewrite <- Es in Hc. clear Hpos Hn'.
  destruct (@setup_stream_succeeds rate width height img b o1 h0 w0 tl Es Hw0)
    as (o2 & b' & Esetup & Hmux & _).
  rewrite Hn in Esetup.
  destruct (color_frame_color img Hn Hc) as (c & colored & Ei & Ec & Hs & Hd).
  destruct (@scale_frame_succeeds colored) as (frame & Esc & Hsf & Hdf).
  { rewrite Hs. apply indices_nonempty, delete_at_nonempty, Hne. }
  destruct (@color_loop rate width height rest 0%nat (mk_locals b' (Some 3%nat))
              (fst (encode_and_mux frame o2)) eq_refl Hrest)
    as (o3 & frames & Eloop & Hcl & Hm & HF).
  exists (fst (close o3)).
  cbn [export_loop]. unfold export_frame. cbn [Nat.eqb].
  rewrite !run_bind, Esetup. cbn [l_ndim]. unfold lift at 1. rewrite Ec.
  rewrite run_bind. cbv beta iota. unfold lift at 1. rewrite Esc.
  rewrite !run_bind.
  change (encode_and_mux frame o2)
    with (fst (encode_and_mux frame o2), @inr exn unit tt) at 1.
  cbv beta iota. unfold io_ret at 1. rewrite Eloop.
  split; [reflexivity | ]. split; [reflexivity | ].
  cbn [close update fst muxed]. rewrite Hm.
  cbn [encode_and_mux update fst muxed]. rewrite Hmux.
  constructor; [ | exact HF].
  exists c. repeat split; congruence.
Qed.

Lemma export_color_sequence_witness :
  forallb color_ok [color_first; color_middle; color_last] = true /\
  exists o,
    export [color_first; color_middle; color_last] "out.avi" 30 None None None
      "mpeg4" "yuv420p" true = (o, inr tt) /\
    closed o = true /\
    Forall2 accepted_as_color [color_first; color_middle; color_last] (muxed o).
Proof.
  split; [reflexivity | ].
  apply (@export_color_sequence color_first [color_middle; color_last] "out.avi" 30
           None None None "mpeg4" "yuv420p"). reflexivity.
Defined.

(** ** A frame with no element stops the export *)

Lemma flat_map_nil A B (f : A -> list B) l :
  (forall x, f x = []) -> flat_map f l = [].
Proof.
  intros H. induction l as [| x l IH]; simpl; [reflexivity | ].
  now rewrite H, IH.
Qed.

Lemma indices_empty s : forallb (Nat.ltb 0) s = false -> indices s = [].
Proof.
  induction s as [| n s IH]; simpl; [discriminate | ].
  destruct n as [| n]; [reflexivity | ].
  cbn [Nat.ltb Nat.leb andb]. intros H. apply flat_map_nil.
  intros i. now rewrite (IH H).
Qed.

Lemma gray_shape_empty s :
  forallb (Nat.ltb 0) s = false -> forallb (Nat.ltb 0) (gray_shape s) = false.
Proof.
  intros H. unfold gray_shape. rewrite forallb_app.
  rewrite <- (firstn_skipn 2 s), forallb_app in H.
  apply andb_false_iff in H as [H | H].
  - now rewrite H.
  - cbn [forallb]. rewrite H. now rewrite !andb_false_r.
Qed.

(** With autoscaling on, an array without elements has no minimum. *)
Lemma scale_frame_empty a :
  indices (shape a) = [] -> scale_frame true a = raise zero_size.
Proof.
  intros H. unfold scale_frame, amin, reduce, elements. rewrite H.
  rewrite andb_false_r. reflexivity.
Qed.

Lemma empty_step rate width height n img l o :
  l_ndim l = Some 2%nat -> (2 <= ndim img)%nat -> nonempty img = false ->
  export_frame rate width height true (S n) img l o = (o, inl zero_size).
Proof.
  intros Hl Hn Hne.
  destruct (color_frame_gray img Hn) as (colored & Ec & Hs & _ & _).
  unfold export_frame. cbn [Nat.eqb]. rewrite !run_bind. cbn [io_ret].
  rewrite Hl. unfold lift at 1. rewrite Ec. rewrite run_bind.
  unfold lift at 1. rewrite scale_frame_empty; [reflexivity | ].
  rewrite Hs. apply indices_empty, gray_shape_empty, Hne.
Qed.

Lemma gray_loop_stops rate width height good bad rest :
  forall n l o,
    l_ndim l = Some 2%nat ->
    forallb gray_ok good = true ->
    (2 <= ndim bad)%nat -> nonempty bad = false ->
    exists o' frames,
      export_loop rate width height true (S n) (good ++ bad :: rest) l o
      = (o', inl zero_size) /\
      closed o' = closed o /\
      muxed o' = muxed o ++ frames /\
      Forall2 accepted_as_gray good frames.
Proof.
  induction good as [| img good IH]; intros n l o Hl Hall Hn Hne.
  - exists o, []. cbn [app export_loop]. rewrite run_bind.
    rewrite (empty_step rate width height n bad l o Hl Hn Hne).
    rewrite app_nil_r. repeat split. constructor.
  - cbn [forallb] in Hall. apply andb_prop in Hall as [Himg Hrest].
    unfold gray_ok in Himg. apply andb_prop in Himg as [Hni Hnei].
    apply Nat.leb_le in Hni.
    destruct (@gray_step rate width height n img l o Hl Hni Hnei) as (frame & E & Hacc).
    destruct (IH (S n) l (fst (encode_and_mux frame o)) Hl Hrest Hn Hne)
      as (o' & frames & E' & Hc & Hm & HF).
    exists o', (frame :: frames).
    cbn [app export_loop]. rewrite run_bind, E, E'.
    split; [reflexivity | ]. split; [exact Hc | ]. split.
    + rewrite Hm. cbn [encode_and_mux update fst muxed].
      now rewrite <- app_assoc.
    + now constructor.
Qed.

(** X17: there is no roll-back: when a sequence that starts with a non-empty
    grayscale frame reaches a frame that has an axis of length 0, [export]
    raises the "zero-size array" ValueError of [img.min()]; the frames before
    it have been muxed, one uint8 frame each and in order, the frames after it
    are not looked at, and the container is left open. *)
Theorem export_stops_at_empty_frame :
  forall img good bad rest fname rate b width height codec format,
    ndim img = 2%nat -> nonempty img = true ->
    forallb gray_ok good = true ->
    (2 <= ndim bad)%nat -> nonempty bad = false ->
    let r := export (img :: good ++ bad :: rest) fname rate b width height
               codec format true in
    snd r = inl zero_size /\
    closed (fst r) = false /\
    Forall2 accepted_as_gray (img :: good) (muxed (fst r)).
Proof.
  intros img good bad rest fname rate b width height codec format
         Hn Hne Hgood Hnb Hneb r. subst r.
  rewrite export_unfold.
  set (o1 := fst (set_pix_fmt format (av_open fname codec rate))).
  destruct (@setup_stream_gray rate width height img b o1 Hn (nonempty_indices img Hne))
    as (o2 & b' & Esetup & Hmux).
  pose proof (setup_keeps_closed rate width height img (mk_locals b None) o1) as Hcl2.
  rewrite Esetup in Hcl2. cbn [fst] in Hcl2.
  destruct (@color_frame_gray img) as (colored & Ec & Hs & _ & _); [lia | ].
  destruct (@scale_frame_succeeds colored) as (frame & Es & Hsf & Hdf).
  { rewrite Hs. apply indices_nonempty, gray_shape_nonempty, Hne. }
  destruct (@gray_loop_stops rate width height good bad rest 0%nat
              (mk_locals b' (Some 2%nat)) (fst (encode_and_mux frame o2))
              eq_refl Hgood Hnb Hneb)
    as (o3 & frames & Eloop & Hc & Hm & HF).
  assert (E : (export_loop rate width height true 0 (img :: good ++ bad :: rest)
                 (mk_locals b None) ;; close)%io o1 = (o3, inl zero_size)).
  { cbn [export_loop]. unfold export_frame. cbn [Nat.eqb].
    rewrite !run_bind, Esetup. cbn [l_ndim]. unfold lift at 1. rewrite Ec.
    rewrite run_bind. cbv beta iota. unfold lift at 1. rewrite Es.
    rewrite !run_bind.
    change (encode_and_mux frame o2)
      with (fst (encode_and_mux frame o2), @inr exn unit tt) at 1.
    cbv beta iota. unfold io_ret at 1. rewrite Eloop. reflexivity. }
  rewrite E. cbn [fst snd].
  split; [reflexivity | ]. split.
  - rewrite Hc. cbn [encode_and_mux update fst closed]. rewrite Hcl2. reflexivity.
  - rewrite Hm. cbn [encode_and_mux update fst muxed]. rewrite Hmux.
    constructor; [split; congruence | exact HF].
Qed.

Lemma export_stops_at_empty_frame_witness :
  ndim ramp22 = 2%nat /\ nonempty ramp22 = true /\
  forallb gray_ok [frame34] = true /\
  (2 <= ndim no_columns)%nat /\ nonempty no_columns = false /\
  let r := export (ramp22 :: [frame34] ++ no_columns :: [ramp22]) "out.avi" 30
             None None None "mpeg4" "yuv420p" true in
  snd r = inl zero_size /\
  closed (fst r) = false /\
  Forall2 accepted_as_gray (ramp22 :: [frame34]) (muxed (fst r)).
Proof.
  split; [reflexivity | split; [reflexivity | split; [reflexivity | ]]].
  split; [vm_compute; lia | split; [reflexivity | ]].
  apply (@export_stops_at_empty_frame ramp22 [frame34] no_columns [ramp22]
           "out.avi" 30 None None None "mpeg4" "yuv420p");
    solve [reflexivity | vm_compute; lia].
Defined.

(** * [_as_png] *)

Lemma floordiv_positive z w0 :
  w0 <> 0%nat -> floordiv z (Z.of_nat w0) = ret (z / Z.of_nat w0).
Proof.
  intros H. unfold floordiv. destruct (Z.eqb_spec (Z.of_nat w0) 0); [lia | reflexivity].
Qed.

Lemma second_axis_positive a h0 w0 tl :
  shape a = h0 :: w0 :: tl -> indices (shape a) <> [] -> w0 <> 0%nat.
Proof.
  intros Hs Hne. apply nonempty_axes_positive in Hne. rewrite Hs in Hne.
  inversion Hne as [| ? ? _ Hp]; subst. inversion Hp; subst. lia.
Qed.

(** X18: on a non-empty array of values of its dtype that is not flat,
    [_as_png] with [normalize=True] hands the imaging library the very uint8
    array that the autoscaling of [export] computes for the same input, with
    the height [shape[0] * width // shape[1]]. *)
Theorem _as_png_scales_like_export :
  forall png_bytes arr w h0 w0 tl,
    shape arr = h0 :: w0 :: tl ->
    nonempty arr = true -> well_typed arr = true -> is_flat arr = false ->
    exists frame,
      scale_frame true arr = inr frame /\
      _as_png png_bytes arr w true
      = inr (png_bytes frame w (Z.of_nat h0 * w / Z.of_nat w0)).
Proof.
  intros png_bytes arr w h0 w0 tl Hs Hne Hty Hflat.
  pose proof (second_axis_positive arr Hs (nonempty_indices arr Hne)) as Hw0.
  destruct (@rescaled_to_unit arr (nonempty_indices arr Hne) (well_typed_items arr Hty) Hflat)
    as (lo & hi & p & Elo & Ehi & Ep & Hpos & _).
  eexists. split.
  - unfold scale_frame. rewrite andb_false_r, Elo, Ehi. cbn [bind ret].
    rewrite Ep. reflexivity.
  - unfold _as_png, _normalize. rewrite Hs. cbn [getitem nth_error bind ret].
    rewrite (floordiv_positive _ Hw0). cbn [bind ret].
    rewrite Ehi, Elo. cbn [bind ret]. rewrite Ep.
    cbn [num_eq0]. rewrite (Qzero_positive Hpos). reflexivity.
Qed.

Lemma _as_png_scales_like_export_witness :
  shape hundreds = [2; 2]%nat /\
  nonempty hundreds = true /\ well_typed hundreds = true /\
  is_flat hundreds = false /\
  exists frame,
    scale_frame true hundreds = inr frame /\
    _as_png (fun _ _ _ => "png") hundreds 512 true
    = inr ((fun _ _ _ => "png") frame 512 (Z.of_nat 2 * 512 / Z.of_nat 2)).
Proof.
  split; [reflexivity | split; [reflexivity | split; [reflexivity | ]]].
  split; [reflexivity | ].
  apply (@_as_png_scales_like_export (fun _ _ _ => "png") hundreds 512 2%nat 2%nat []);
    reflexivity.
Defined.

(** X19: on a flat array [_as_png] with [normalize=True] hands the imaging
    library an all-zero uint8 array, whatever the array's value: a flat image
    is drawn black. *)
Theorem _as_png_flat_is_black :
  forall png_bytes arr w h0 w0 tl,
    shape arr = h0 :: w0 :: tl ->
    is_flat arr = true ->
    exists frame,
      _as_png png_bytes arr w true
      = inr (png_bytes frame w (Z.of_nat h0 * w / Z.of_nat w0)) /\
      shape frame = shape arr /\ dtype_of frame = uint8 /\
      uniform (of_Z 0) frame.
Proof.
  intros png_bytes arr w h0 w0 tl Hs Hflat.
  destruct (is_flat_flat_at arr Hflat) as (q & Hq).
  pose proof (second_axis_positive arr Hs (proj1 Hq)) as Hw0.
  destruct (_normalize_flat Hq) as (out & En & Hso & Hdo & Hu).
  eexists. split; [ | split; [ | split ] ].
  - unfold _as_png. rewrite Hs. cbn [getitem nth_error bind ret].
    rewrite (floordiv_positive _ Hw0). cbn [bind ret].
    rewrite En. cbn [bind ret]. reflexivity.
  - cbn [shape astype mul_scalar map_items]. exact Hso.
  - reflexivity.
  - intros idx Hin. cbn [shape item astype mul_scalar map_items dtype_of] in *.
    rewrite (Hu idx Hin), Hdo. reflexivity.
Qed.

Lemma _as_png_flat_is_black_witness :
  shape flat22 = [2; 2]%nat /\ is_flat flat22 = true /\
  exists frame,
    _as_png (fun _ _ _ => "png") flat22 512 true
    = inr ((fun _ _ _ => "png") frame 512 (Z.of_nat 2 * 512 / Z.of_nat 2)) /\
    shape frame = shape flat22 /\ dtype_of frame = uint8 /\
    uniform (of_Z 0) frame.
Proof.
  split; [reflexivity | split; [reflexivity | ]].
  apply (@_as_png_flat_is_black (fun _ _ _ => "png") flat22 512 2%nat 2%nat []);
    reflexivity.
Defined.

(** * The values [to_rgb] computes *)

(** ** Tints *)

Lemma standard_colors_in_gamut : Forall in_gamut standard_colors.
Proof. repeat constructor; unfold in_gamut; lia. Qed.

Lemma wavelength_to_rgb_in_gamut nm gamma : in_gamut (wavelength_to_rgb nm gamma).
Proof.
  unfold wavelength_to_rgb.
  destruct (if between 380 440 nm then _ else _) as [[R G] B].
  unfold in_gamut, uint8_of_float.
  repeat split; apply Z.mod_pos_bound || (apply Z.lt_succ_r; apply Z.mod_pos_bound);
    reflexivity.
Qed.

Lemma In_firstn A (x : A) n : forall l, In x (firstn n l) -> In x l.
Proof.
  induction n as [| n IH]; intros [| y l]; simpl; try tauto.
  intros [H | H]; [now left | right; now apply IH].
Qed.

Lemma tints_in_gamut image wavelengths : Forall in_gamut (tints image wavelengths).
Proof.
  destruct wavelengths as [| nm | nms]; cbn [tints].
  - apply Forall_forall. intros x Hx. apply In_firstn in Hx.
    exact (proj1 (Forall_forall _ _) standard_colors_in_gamut x Hx).
  - constructor; [apply wavelength_to_rgb_in_gamut | constructor].
  - apply Forall_forall. intros x Hx. apply in_map_iff in Hx as (nm & <- & _).
    apply wavelength_to_rgb_in_gamut.
Qed.

(** Component [k] of a tint, as [np.multiply] reads it. *)
Lemma tint_component rgb k :
  in_gamut rgb -> (k < 3)%nat ->
  exists t, nth k (tuple3 rgb) NaN = of_Z t /\ 0 <= t <= 255.
Proof.
  destruct rgb as [[r g] b]. intros (Hr & Hg & Hb) Hk.
  destruct k as [| [| [| k]]]; try lia; eexists; (split; [reflexivity | assumption]).
Qed.

Lemma tint_bright_component rgb :
  in_gamut rgb -> non_black rgb = true ->
  exists k t, (k < 3)%nat /\ nth k (tuple3 rgb) NaN = of_Z t /\ 1 <= t <= 255.
Proof.
  destruct rgb as [[r g] b]. intros (Hr & Hg & Hb) Hnb. unfold non_black in Hnb.
  destruct (Z.eqb_spec r 0) as [-> | Hr0].
  - destruct (Z.eqb_spec g 0) as [-> | Hg0].
    + destruct (Z.eqb_spec b 0) as [-> | Hb0]; [discriminate | ].
      exists 2%nat, b. repeat split; lia.
    + exists 1%nat, g. repeat split; lia.
  - exists 0%nat, r. repeat split; lia.
Qed.

(** ** One tinted pixel *)

Lemma tinted_pixel v t :
  (0 <= v <= 1)%Q -> 0 <= t <= 255 ->
  exists z, to_unsigned 8 (num_mul (Fin (Qred v)) (of_Z t)) = of_Z z /\ 0 <= z <= t.
Proof.
  intros Hv Ht. unfold num_mul, of_Z, fin, to_unsigned.
  eexists. split; [reflexivity | ].
  assert (Hq : (0 <= inject_Z t)%Q) by (change 0%Q with (inject_Z 0); rewrite <- Zle_Qle; lia).
  assert (Hb : 0 <= Qtrunc (Qred (Qred v * inject_Z t)) <= t).
  { apply Qtrunc_bounds; rewrite !Qred_correct; nra. }
  rewrite Z.mod_small by (change (2 ^ 8) with 256; lia). exact Hb.
Qed.

Lemma full_pixel t :
  0 <= t <= 255 -> to_unsigned 8 (num_mul (Fin 1) (of_Z t)) = of_Z t.
Proof.
  intros Ht. unfold num_mul, of_Z, fin, to_unsigned.
  rewrite (@Qtrunc_integer _ t) by (rewrite Qred_correct; ring).
  rewrite Z.mod_small by (change (2 ^ 8) with 256; lia). reflexivity.
Qed.

Lemma added_pixels n x y :
  pixel_le n x -> pixel_le 255 y -> n + 255 < 65536 ->
  exists a b, x = of_Z a /\ y = of_Z b /\ 0 <= a <= n /\ 0 <= b <= 255 /\
              cast uint16 (num_add x y) = of_Z (a + b).
Proof.
  intros (a & -> & Ha) (b & -> & Hb) Hn. exists a, b. repeat split; try lia.
  unfold cast, num_add, of_Z, fin, to_unsigned.
  rewrite (@Qtrunc_integer _ (a + b))
    by (rewrite Qred_correct, inject_Z_plus; reflexivity).
  rewrite Z.mod_small by (change (2 ^ 16) with 65536; lia). reflexivity.
Qed.

(** ** One channel *)

(** What [_normalize] returns on a non-empty array of values of its dtype,
    flat or not. *)
Lemma _normalize_values a :
  indices (shape a) <> [] ->
  (forall idx, In idx (indices (shape a)) -> fits (dtype_of a) (item a idx) = true) ->
  exists normed,
    _normalize a = inr normed /\ shape normed = shape a /\
    (forall idx, In idx (indices (shape a)) ->
       exists v, item normed idx = Fin (Qred v) /\ (0 <= v <= 1)%Q) /\
    (is_flat a = false -> element normed (Fin 1)).
Proof.
  intros Hne Hty. destruct (is_flat a) eqn:Hflat.
  - destruct (is_flat_flat_at a Hflat) as (q & Hq).
    destruct (_normalize_flat Hq) as (out & E & Hs & _ & Hu).
    exists out. repeat split; try assumption; [ | discriminate ].
    intros idx Hin. exists 0%Q. rewrite <- Hs in Hin. rewrite (Hu idx Hin).
    split; [reflexivity | lra].
  - destruct (@rescaled_to_unit a Hne Hty Hflat)
      as (lo & hi & p & Elo & Ehi & Ep & Hpos & Hrange & _ & Hmax).
    exists (div_scalar (sub_scalar a (Fin lo)) (Fin p)).
    split; [ | split; [reflexivity | split; [exact Hrange | intros _; exact Hmax]]].
    unfold _normalize. rewrite Ehi, Elo. cbn [bind ret]. rewrite Ep.
    cbn [num_eq0]. rewrite (Qzero_positive Hpos). reflexivity.
Qed.

(** The elements of the array [_monochannel_to_rgb] returns. *)
Lemma _monochannel_to_rgb_items channel rgb normed :
  _normalize channel = inr normed ->
  exists mono,
    _monochannel_to_rgb channel rgb = inr mono /\
    shape mono = shape normed ++ [3%nat] /\
    forall idx0 k, In idx0 (indices (shape normed)) -> (k < 3)%nat ->
      item mono (idx0 ++ [k])
      = to_unsigned 8 (num_mul (item normed idx0) (nth k (tuple3 rgb) NaN)).
Proof.
  intros En. unfold _monochannel_to_rgb. rewrite En. cbn [bind].
  destruct (@expand_repeat_last normed (-1) (-1)) as (n2 & E2 & Hs2 & _ & Hi2);
    try (now right).
  unfold bind in E2 |- *.
  destruct (np.expand_dims normed (-1)) as [e | x]; [discriminate | ].
  rewrite E2. unfold np.multiply, ndim. rewrite Hs2, last_last, length_app.
  assert (Hl : length (tuple3 rgb) = 3%nat) by (destruct rgb as [[? ?] ?]; reflexivity).
  rewrite Hl. cbn [length Nat.eqb]. rewrite Nat.add_comm. cbn [Nat.add Nat.eqb negb andb].
  eexists. split; [reflexivity | ]. cbn [shape item astype map_items cast].
  split; [reflexivity | ].
  intros idx0 k Hin Hk. rewrite last_last, (Hi2 idx0 k Hin Hk). reflexivity.
Qed.

Lemma _monochannel_to_rgb_range channel rgb :
  indices (shape channel) <> [] ->
  (forall idx, In idx (indices (shape channel)) ->
     fits (dtype_of channel) (item channel idx) = true) ->
  in_gamut rgb ->
  exists mono,
    _monochannel_to_rgb channel rgb = inr mono /\
    shape mono = shape channel ++ [3%nat] /\
    (forall idx, In idx (indices (shape mono)) -> pixel_le 255 (item mono idx)) /\
    (is_flat channel = false -> non_black rgb = true -> has_positive mono).
Proof.
  intros Hne Hty Hg.
  destruct (_normalize_values channel Hne Hty) as (normed & En & Hsn & Hv & Hmax).
  destruct (_monochannel_to_rgb_items channel rgb En) as (mono & Em & Hsm & Hi).
  rewrite Hsn in Hsm, Hi.
  exists mono. split; [exact Em | split; [exact Hsm | split]].
  - intros idx Hin. rewrite Hsm in Hin.
    apply In_indices_app in Hin as (idx0 & k & -> & Hin0 & Hk).
    rewrite (Hi idx0 k Hin0 Hk).
    destruct (Hv idx0 Hin0) as (v & -> & Hv01).
    destruct (tint_component rgb Hg Hk) as (t & -> & Ht).
    destruct (tinted_pixel Hv01 Ht) as (z & -> & Hz).
    exists z. split; [reflexivity | lia].
  - intros Hflat Hnb. destruct (Hmax Hflat) as (idx0 & Hin0 & E1).
    rewrite Hsn in Hin0.
    destruct (tint_bright_component rgb Hg Hnb) as (k & t & Hk & Et & Ht).
    exists (idx0 ++ [k]), t. split; [ | split; [ | lia ] ].
    + rewrite Hsm. apply In_indices_app. now exists idx0, k.
    + rewrite (Hi idx0 k Hin0 Hk), E1, Et. apply full_pixel. lia.
Qed.

(** ** The accumulator *)

Lemma In_indices_cons n s k idx :
  In (k :: idx) (indices (n :: s)) <-> (k < n)%nat /\ In idx (indices s).
Proof.
  rewrite !In_indices. split.
  - intros H. inversion H; subst. auto.
  - intros [H1 H2]. now constructor.
Qed.

Lemma of_Z_inj a b : of_Z a = of_Z b -> a = b.
Proof. unfold of_Z, inject_Z. intros H. now inversion H. Qed.

(** The loop of lines 366-367 on an image of values of its dtype: after [m]
    channels every element of the accumulator is an integer from 0 to 255 m,
    so the uint16 sum does not wrap; a channel that is not flat and whose
    tint is not black leaves an element of 1 or more. *)
Lemma accumulate_range image rgbs n0 s :
  shape image = n0 :: s ->
  indices s <> [] ->
  (forall idx, In idx (indices (shape image)) ->
     fits (dtype_of image) (item image idx) = true) ->
  Forall in_gamut rgbs ->
  forall range result i m,
    (forall k, In k range -> (k < n0)%nat /\ (k < length rgbs)%nat) ->
    shape result = s ++ [3%nat] ->
    dtype_of result = uint16 ->
    (forall idx, In idx (indices (shape result)) ->
       pixel_le (255 * Z.of_nat m) (item result idx)) ->
    (m + length range <= 4)%nat ->
    exists r i',
      accumulate image rgbs range result i = inr (r, i') /\
      shape r = s ++ [3%nat] /\
      dtype_of r = uint16 /\
      (forall idx, In idx (indices (shape r)) ->
         pixel_le (255 * Z.of_nat (m + length range)) (item r idx)) /\
      (has_positive result \/
       (exists k rgb, In k range /\ channel_flat image k = false /\
                      nth_error rgbs k = Some rgb /\ non_black rgb = true) ->
       has_positive r).
Proof.
  intros Hshape Hne Hty Hgamut.
  induction range as [| k range IH]; intros result i m Hk Hs Hd Hb Hm.
  - exists result, i. cbn [accumulate length]. rewrite Nat.add_0_r.
    repeat split; try assumption.
    intros [H | (k & rgb & [] & _)]. exact H.
  - cbn [accumulate length] in *.
    destruct (Hk k (or_introl eq_refl)) as [Hk0 Hk1].
    set (channel := mk_array (dtype_of image) s (fun idx => item image (k :: idx))).
    assert (Ech : getitem0 image k = inr channel).
    { unfold getitem0. rewrite Hshape.
      apply Nat.ltb_lt in Hk0. now rewrite Hk0. }
    rewrite Ech. cbn [bind].
    destruct (@getitem_some _ "list" rgbs k Hk1) as (rgb & Ergb).
    rewrite Ergb. cbn [bind].
    assert (Hnth : nth_error rgbs k = Some rgb).
    { unfold getitem in Ergb. destruct (nth_error rgbs k); [ | discriminate ].
      inversion Ergb. reflexivity. }
    assert (Hg : in_gamut rgb).
    { apply nth_error_In in Hnth.
      exact (proj1 (Forall_forall _ _) Hgamut rgb Hnth). }
    destruct (@_monochannel_to_rgb_range channel rgb) as (mono & Em & Hsm & Hbm & Hpm);
      [ exact Hne | | exact Hg | ].
    { intros idx Hin. cbn [channel dtype_of item shape] in *.
      apply Hty. rewrite Hshape. apply In_indices_cons. auto. }
    rewrite Em. cbn [bind]. cbn [channel shape] in Hsm.
    unfold iadd. rewrite Hs, Hsm.
    destruct (list_eq_dec Nat.eq_dec _ _) as [_ | Hx]; [ | congruence ].
    cbn [bind ret]. rewrite Hd.
    set (result' := mk_array uint16 (s ++ [3%nat]) _).
    assert (Hadd : forall idx, In idx (indices (s ++ [3%nat])) ->
              exists a b, item result idx = of_Z a /\ item mono idx = of_Z b /\
                          0 <= a <= 255 * Z.of_nat m /\ 0 <= b <= 255 /\
                          item result' idx = of_Z (a + b)).
    { intros idx Hin. cbn [result' item].
      apply added_pixels; [apply Hb; now rewrite Hs | apply Hbm; now rewrite Hsm | lia]. }
    destruct (IH result' (Some k) (S m)) as (r & i' & E & Hsr & Hdr & Hbr & Hpr).
    + intros k' H. apply Hk. now right.
    + reflexivity.
    + reflexivity.
    + intros idx Hin. cbn [result' shape] in Hin.
      destruct (Hadd idx Hin) as (a & b & _ & _ & Ha & Hb' & ->).
      exists (a + b). split; [reflexivity | lia].
    + lia.
    + exists r, i'. split; [exact E | split; [exact Hsr | split; [exact Hdr | split]]].
      * intros idx Hin. replace (m + S (length range))%nat with (S m + length range)%nat by lia.
        now apply Hbr.
      * intros Hpos. apply Hpr.
        assert (Hnew : has_positive result \/
                       (channel_flat image k = false /\ non_black rgb = true) ->
                       has_positive result').
        { intros [(idx & z & Hin & Ez & Hz) | [Hcf Hnb]].
          - rewrite Hs in Hin. destruct (Hadd idx Hin) as (a & b & Ea & _ & Ha & Hb' & Er).
            rewrite Ea in Ez. apply of_Z_inj in Ez. subst a.
            exists idx, (z + b). split; [exact Hin | split; [exact Er | lia]].
          - unfold channel_flat in Hcf. rewrite Ech in Hcf.
            destruct (Hpm Hcf Hnb) as (idx & z & Hin & Ez & Hz).
            rewrite Hsm in Hin. destruct (Hadd idx Hin) as (a & b & _ & Eb & Ha & Hb' & Er).
            rewrite Eb in Ez. apply of_Z_inj in Ez. subst b.
            exists idx, (a + z). split; [exact Hin | split; [exact Er | lia]]. }
        destruct Hpos as [Hp | (k0 & rgb0 & [<- | Hin0] & Hcf & Hn0 & Hnb)].
        -- left. apply Hnew. now left.
        -- left. apply Hnew. right. rewrite Hnth in Hn0. inversion Hn0; subst. auto.
        -- right. exists k0, rgb0. auto.
Qed.

Lemma combine_range image wavelengths :
  is_multichannel image = true ->
  nonempty image = true ->
  well_typed image = true ->
  (channels image <= supplied wavelengths)%nat ->
  exists r,
    combine image (tints image wavelengths) = inr r /\
    shape r = tl (shape image) ++ [3%nat] /\
    dtype_of r = uint16 /\
    indices (shape r) <> [] /\
    (forall idx, In idx (indices (shape r)) ->
       pixel_le (255 * Z.of_nat (channels image)) (item r idx)) /\
    (all_channels_flat image = false ->
     forallb non_black (tints image wavelengths) = true -> has_positive r).
Proof.
  intros Hmulti Hne Hty Hsup.
  pose proof (well_typed_items image Hty) as Htyp.
  unfold nonempty in Hne.
  assert (Hch : channels image = hd 0%nat (shape image))
    by (unfold channels; now rewrite Hmulti).
  pose proof Hmulti as Hm. unfold is_multichannel, ndim in Hm.
  destruct (shape image) as [| n0 s] eqn:Hshape; [discriminate | ].
  cbn [hd tl forallb] in *. apply andb_prop in Hne as [Hn0 Hs].
  apply andb_prop in Hm as [_ Hn5]. apply Nat.ltb_lt in Hn0, Hn5.
  assert (Hlen : length (tints image wavelengths) = n0).
  { rewrite length_tints. destruct wavelengths; simpl in *; lia. }
  pose proof (indices_nonempty s Hs) as Hse.
  destruct (@accumulate_range image (tints image wavelengths) n0 s Hshape Hse)
    with (range := seq 0 n0) (result := np.zeros (s ++ [3%nat]) uint16)
         (i := @None nat) (m := 0%nat)
    as (r & i' & Eacc & Hsr & Hdr & Hbr & Hpr).
  { rewrite Hshape. exact Htyp. }
  { apply tints_in_gamut. }
  { intros k Hk. apply in_seq in Hk. lia. }
  { reflexivity. }
  { reflexivity. }
  { intros idx _. exists 0. split; [reflexivity | lia]. }
  { rewrite length_seq. lia. }
  exists r. rewrite length_seq in Hbr. cbn [Nat.add] in Hbr.
  split; [ | split; [exact Hsr | split; [exact Hdr | split; [ | split]]]].
  - unfold combine, shape_rgb. rewrite Hmulti, Hch, Hshape. cbn [tl].
    rewrite Eacc. reflexivity.
  - rewrite Hsr. apply indices_app_nonempty; [exact Hse | lia].
  - rewrite Hch. exact Hbr.
  - intros Hflat Hnb. apply Hpr. right.
    unfold all_channels_flat in Hflat. rewrite Hch in Hflat.
    destruct (forallb_false _ _ Hflat) as (k & Hk & Hcf).
    pose proof Hk as Hk'. apply in_seq in Hk'.
    destruct (nth_error (tints image wavelengths) k) as [rgb | ] eqn:En.
    + exists k, rgb. repeat split; try assumption.
      rewrite forallb_forall in Hnb. apply Hnb. eapply nth_error_In; eassumption.
    + apply nth_error_None in En. lia.
Qed.

(** X20: with [normalize=False], for a multichannel image of values of its
    dtype with no empty axis and enough tints, every element of the uint16
    array [to_rgb] returns is an integer from 0 to 255 times the number of
    channels (at most 1020): the sums of the tinted channels never wrap. *)
Theorem to_rgb_accumulator_range :
  forall image wavelengths,
    is_multichannel image = true ->
    nonempty image = true ->
    well_typed image = true ->
    (channels image <= supplied wavelengths)%nat ->
    exists out,
      to_rgb image wavelengths false = inr out /\
      dtype_of out = uint16 /\
      (channels image <= 4)%nat /\
      forall idx, In idx (indices (shape out)) ->
                  pixel_le (255 * Z.of_nat (channels image)) (item out idx).
Proof.
  intros image wavelengths Hmulti Hne Hty Hsup.
  destruct (combine_range image wavelengths Hmulti Hne Hty Hsup)
    as (r & Ec & Hs & Hd & _ & Hb & _).
  assert (Hlen : length (tints image wavelengths) = channels image).
  { pose proof Hne as Hne'. unfold nonempty in Hne'.
    pose proof Hmulti as Hm. unfold is_multichannel, ndim in Hm.
    rewrite length_tints. unfold channels in *. rewrite Hmulti in *.
    destruct (shape image) as [| n0 s]; [discriminate | ].
    cbn [hd forallb] in *. apply andb_prop in Hne' as [Hn0 _].
    apply Nat.ltb_lt in Hn0. destruct wavelengths; simpl in *; lia. }
  exists r. unfold to_rgb. rewrite Hlen, Nat.eqb_refl, Ec, andb_false_r.
  cbn [negb bind ret]. repeat split; try assumption.
  unfold channels. rewrite Hmulti. unfold is_multichannel in Hmulti.
  apply andb_prop in Hmulti as [_ H5]. apply Nat.ltb_lt in H5. lia.
Qed.

Lemma to_rgb_accumulator_range_witness :
  is_multichannel two_channels = true /\
  nonempty two_channels = true /\
  well_typed two_channels = true /\
  (channels two_channels <= supplied WNone)%nat /\
  exists out,
    to_rgb two_channels WNone false = inr out /\
    dtype_of out = uint16 /\
    (channels two_channels <= 4)%nat /\
    forall idx, In idx (indices (shape out)) ->
                pixel_le (255 * Z.of_nat (channels two_channels)) (item out idx).
Proof.
  split; [reflexivity | split; [reflexivity | split; [reflexivity | ]]].
  split; [vm_compute; lia | ].
  apply (@to_rgb_accumulator_range two_channels WNone);
    solve [reflexivity | vm_compute; lia].
Defined.

(** ** The final normalisation *)



(** * Two more ways [export] stops at the first frame *)

(** X22: when a width is given without a usable height and the first frame
    has a second axis of length 0, the height [width * shape[0] // shape[1]]
    raises ZeroDivisionError: the stream already has the width but no height,
    nothing is muxed and the container stays open. *)
Theorem export_zero_columns_division :
  forall img rest fname rate b w height codec format autoscale h0 tl,
    shape img = h0 :: 0%nat :: tl ->
    height = None \/ height = Some 0 ->
    let r := export (img :: rest) fname rate b (Some w) height codec format autoscale in
    snd r = inl ZeroDivisionError /\
    stream_width (fst r) = Some w /\ stream_height (fst r) = None /\
    muxed (fst r) = [] /\ closed (fst r) = false.
Proof.
  intros img rest fname rate b w height codec format autoscale h0 tl Hs Hh r.
  subst r. rewrite export_unfold. cbn [export_loop]. unfold export_frame.
  cbn [Nat.eqb]. rewrite !run_bind. unfold setup_stream, _estimate_bitrate.
  rewrite Hs.
  destruct Hh as [-> | ->]; destruct b as [b | ]; cbn; repeat split.
Qed.

Lemma export_zero_columns_division_witness :
  shape no_columns = [2; 0]%nat /\
  (@None Z = None \/ @None Z = Some 0) /\
  let r := export [no_columns] "out.avi" 30 None (Some 64) None
             "mpeg4" "yuv420p" true in
  snd r = inl ZeroDivisionError /\
  stream_width (fst r) = Some 64 /\ stream_height (fst r) = None /\
  muxed (fst r) = [] /\ closed (fst r) = false.
Proof.
  split; [reflexivity | split; [now left | ]].
  apply (@export_zero_columns_division no_columns [] "out.avi" 30 None 64 None
           "mpeg4" "yuv420p" true 2%nat []); [reflexivity | now left].
Defined.

Lemma color_frame_well_formed img :
  (2 <= ndim img)%nat -> malformed img = false ->
  exists out, color_frame (Some (ndim img)) img = inr out.
Proof.
  intros Hn Hok. unfold malformed in Hok.
  destruct (ndim img) as [| [| [| [| n]]]] eqn:En; try lia; try discriminate.
  - destruct (color_frame_gray img) as (out & E & _); [lia | ]. now exists out.
  - apply negb_false_iff, Nat.eqb_eq in Hok.
    destruct (color_frame_color img En Hok) as (c & out & _ & E & _). now exists out.
Qed.

(** X23: with [autoscale=False], every sequence whose first frame passes the
    shape test (rank 2, or rank 3 with one axis of length 3; second axis not
    empty) makes [export] raise the autoscaling ValueError on that first
    frame, whatever the frame's dtype: nothing is muxed and the container
    stays open. *)
Theorem export_without_autoscale_always_raises :
  forall img rest fname rate b width height codec format,
    malformed img = false ->
    nth 1 (shape img) 0%nat <> 0%nat ->
    let r := export (img :: rest) fname rate b width height codec format false in
    snd r = inl autoscale_off /\ muxed (fst r) = [] /\ closed (fst r) = false.
Proof.
  intros img rest fname rate b width height codec format Hok Hw r. subst r.
  assert (Hn : (2 <= ndim img)%nat).
  { unfold malformed in Hok. destruct (ndim img) as [| [| n]]; try discriminate. lia. }
  rewrite export_unfold.
  set (o1 := fst (set_pix_fmt format (av_open fname codec rate))).
  pose proof Hn as Hn'. unfold ndim in Hn'.
  destruct (shape img) as [| h0 [| w0 tl]] eqn:Es; simpl in Hn'; try lia.
  destruct (@setup_stream_succeeds rate width height img b o1 h0 w0 tl Es Hw)
    as (o2 & b' & Esetup & Hmux & Hclosed & _).
  destruct (color_frame_well_formed img Hn Hok) as (colored & Ec).
  assert (E : (export_loop rate width height false 0 (img :: rest)
                 (mk_locals b None) ;; close)%io o1 = (o2, inl autoscale_off)).
  { cbn [export_loop]. unfold export_frame. cbn [Nat.eqb].
    rewrite !run_bind, Esetup. cbn [l_ndim]. unfold lift at 1. rewrite Ec.
    rewrite run_bind. unfold lift at 1. unfold scale_frame.
    cbn [py_is negb andb]. reflexivity. }
  rewrite E. cbn [fst snd]. rewrite Hmux, Hclosed. repeat split.
Qed.

Lemma export_without_autoscale_always_raises_witness :
  malformed color_middle = false /\
  nth 1 (shape color_middle) 0%nat <> 0%nat /\
  let r := export [color_middle; ramp22] "out.avi" 30 None None None
             "mpeg4" "yuv420p" false in
  snd r = inl autoscale_off /\ muxed (fst r) = [] /\ closed (fst r) = false.
Proof.
  split; [reflexivity | split; [discriminate | ]].
  apply (@export_without_autoscale_always_raises color_middle [ramp22] "out.avi" 30
           None None None "mpeg4" "yuv420p"); [reflexivity | discriminate].
Defined.
